(** * SurgeProtocol python client: connect / retry / listen / reconnect

    A shallow embedding of [clients/python-client/client.py] and the
    properties its specification states about it.

    The client is a sequential program whose only effects are console
    output, socket calls and sleeping.  It is embedded as state passing
    over a [world] that holds the socket table, what the network is
    going to answer, and the log of every effect performed so far.  The
    [while True] loops take a fuel argument.

    The three functions of the client are transcribed statement by
    statement.  What they call is modelled after CPython: [bytes.decode]
    (strict UTF-8), [str.strip], [str(int)], and of the socket module
    [socket], [settimeout], [connect], [recv], [close].  Time is the
    delay, in seconds, after which a reply of the peer reaches the
    socket.  What an attempt to connect meets is scripted: whether the
    host is taken (one that is ASCII and holds no null character always
    is), whether its lookup succeeds, and what the network then
    answers.  The local variable [sock] of [connect_to_server] is
    modelled with the runtime's reference counting: binding it anew
    finalises the socket it was bound to.  Outside the model: failure
    to create a socket or to write to the console, and signals. *)

From Stdlib Require Import ZArith NArith QArith Lqa Ascii String DecimalString.
From Stdlib.Strings Require Import Byte.
From stdpp Require Import base tactics option list gmap strings.

Local Open Scope Z_scope.

(** ** Python values *)

(** A Python [str] is a sequence of Unicode code points; [bytes] is a
    sequence of bytes. *)
Definition text : Type := list N.
Definition bytes : Type := list byte.

(** A string literal of the source (all of them are ASCII). *)
Definition lit (s : string) : text :=
  map (fun c => N_of_ascii c) (list_ascii_of_string s).

Arguments lit : simpl never.

(** The bytes of an ASCII literal. *)
Definition ascii_bytes (s : string) : bytes :=
  map byte_of_ascii (list_ascii_of_string s).

(** [str(n)] for an [int]. *)
Definition str_of_int (n : Z) : text :=
  lit (NilZero.string_of_int (Z.to_int n)).

Arguments str_of_int : simpl never.

Module Utf8.

(** [bytes.decode()]: strict UTF-8, as CPython decodes it (shortest
    form only, no surrogates, nothing above U+10FFFF).  [None] stands
    for [UnicodeDecodeError]. *)

Definition continuation (b : N) : bool := (128 <=? b)%N && (b <=? 191)%N.
Definition between (lo hi b : N) : bool := (lo <=? b)%N && (b <=? hi)%N.
Definition low6 (b : N) : N := N.land b 63.

(** The range the second byte must lie in, given the lead byte of a
    three- or four-byte sequence. *)
Definition second_range (b0 : N) : N * N :=
  if (b0 =? 224)%N then (160, 191)%N
  else if (b0 =? 237)%N then (128, 159)%N
  else if (b0 =? 240)%N then (144, 191)%N
  else if (b0 =? 244)%N then (128, 143)%N
  else (128, 191)%N.

Fixpoint decode_N (bs : list N) : option text :=
  match bs with
  | [] => Some []
  | b0 :: r0 =>
      if (b0 <? 128)%N then cons b0 <$> decode_N r0
      else if between 194 223 b0 then
        match r0 with
        | b1 :: r1 =>
            if continuation b1
            then cons (N.shiftl (N.land b0 31) 6 + low6 b1)%N <$> decode_N r1
            else None
        | _ => None
        end
      else if between 224 239 b0 then
        match r0 with
        | b1 :: b2 :: r2 =>
            if between (fst (second_range b0)) (snd (second_range b0)) b1
               && continuation b2
            then cons (N.shiftl (N.land b0 15) 12
                       + N.shiftl (low6 b1) 6 + low6 b2)%N <$> decode_N r2
            else None
        | _ => None
        end
      else if between 240 244 b0 then
        match r0 with
        | b1 :: b2 :: b3 :: r3 =>
            if between (fst (second_range b0)) (snd (second_range b0)) b1
               && continuation b2 && continuation b3
            then cons (N.shiftl (N.land b0 7) 18 + N.shiftl (low6 b1) 12
                       + N.shiftl (low6 b2) 6 + low6 b3)%N <$> decode_N r3
            else None
        | _ => None
        end
      else None
  end.

Definition decode (bs : bytes) : option text := decode_N (map Byte.to_N bs).

End Utf8.

Module Str.

(** [str.isspace] on one code point: the characters CPython's
    [str.strip()] removes. *)
Definition isspace (c : N) : bool :=
  ((9 <=? c) && (c <=? 13) || (28 <=? c) && (c <=? 32)
   || (c =? 133) || (c =? 160) || (c =? 5760)
   || (8192 <=? c) && (c <=? 8202)
   || (c =? 8232) || (c =? 8233) || (c =? 8239) || (c =? 8287)
   || (c =? 12288))%N.

Fixpoint lstrip (s : text) : text :=
  match s with
  | c :: s' => if isspace c then lstrip s' else s
  | [] => []
  end.

Definition rstrip (s : text) : text := rev (lstrip (rev s)).

(** [s.strip()]: whitespace goes from both ends. *)
Definition strip (s : text) : text := rstrip (lstrip s).

End Str.

(** ** Exceptions

    [socket.error] is [OSError]; [socket.timeout], [socket.gaierror],
    [ConnectionRefusedError], [ConnectionResetError] and the like are
    its subclasses, so one constructor stands for the whole class and
    carries [str(e)].  The other constructors are the exceptions outside
    that class which the calls of the client can raise. *)
Inductive exn : Type :=
| OSError (msg : text)
| UnicodeDecodeError (data : bytes)
| OverflowError (msg : text)
| ValueError (msg : text)
| TypeError (msg : text).

(** What [except socket.error as e] catches, with [str(e)]. *)
Definition socket_error (e : exn) : option text :=
  match e with
  | OSError msg => Some msg
  | _ => None
  end.

(** ** The world: sockets, network and log *)

(** What the peer does on an established connection, one entry per
    thing that reaches the socket: bytes (none at all: the peer shut the
    connection down) or a transport error, each after a delay. *)
Inductive recv_reply : Type :=
| Data (delay : Q) (payload : bytes)
| Broken (delay : Q) (msg : text).

(** What one connection attempt meets.  [connect] first converts the
    host: a [str] that is ASCII and holds no null character is taken as
    it is; any other is not taken when it holds a null character or
    when the [idna] codec rejects it, and [connect] then raises
    [TypeError] ([Untaken], with the message; the codec is not modelled,
    the entry says how the conversion ends).  Then the host is looked
    up ([Unresolved]: [socket.gaierror]), and the network fails or
    accepts the attempt. *)
Inductive connect_reply : Type :=
| Unresolved (msg : text)
| Failed (delay : Q) (msg : text)
| Accepted (delay : Q) (stream : list recv_reply)
| Untaken (msg : text).

Inductive sock_status : Type := Unconnected | Connected | Closed.

(** A socket as the calls of the program have left it.  (That the
    runtime has closed the descriptor of a socket it finalised is an
    event of the log, [EvFinalize].) *)
Record socket : Type := mkSocket {
  timeout : option Q;
  status : sock_status;
  inbox : list recv_reply
}.

(** Every effect of the program, in the order performed.  [EvSend] is
    the socket API's [send]; the table of primitives below has it like
    the socket module does.  [EvFinalize] is the runtime's doing: the
    descriptor of a socket is closed because its object, which the
    program never closed, is no longer referenced. *)
Inductive event : Type :=
| EvPrint (line : text)
| EvSleep (secs : Q)
| EvSocket (s : nat)
| EvSetTimeout (s : nat) (t : Q)
| EvConnect (s : nat) (host : text) (port : Z) (ok : bool)
| EvRecv (s : nat) (bufsize : nat) (got : option bytes)
| EvSend (s : nat) (data : bytes)
| EvClose (s : nat)
| EvFinalize (s : nat).

Record world : Type := mkWorld {
  socks : list socket;
  net : list connect_reply;
  log : list event
}.

(** ** The monad of the program: state, exceptions, divergence *)

Inductive outcome (A : Type) : Type :=
| Ok (a : A)
| Raise (e : exn)
| Blocked
| OutOfFuel.
Arguments Ok {A} a.
Arguments Raise {A} e.
Arguments Blocked {A}.
Arguments OutOfFuel {A}.

(** A computation over a state [S]: the world, or the world together
    with the local variable of a function. *)
Definition St (S A : Type) : Type := S -> outcome A * S.

Definition M (A : Type) : Type := St world A.

Definition ret {S A} (a : A) : St S A := fun w => (Ok a, w).
Definition raise {S A} (e : exn) : St S A := fun w => (Raise e, w).

Definition bind {S A B} (m : St S A) (k : A -> St S B) : St S B := fun w =>
  match m w with
  | (Ok a, w') => k a w'
  | (Raise e, w') => (Raise e, w')
  | (Blocked, w') => (Blocked, w')
  | (OutOfFuel, w') => (OutOfFuel, w')
  end.

Notation "x <- m ;; k" := (bind m (fun x => k))
  (at level 100, m at next level, right associativity).
Notation "m ;; k" := (bind m (fun _ => k))
  (at level 100, right associativity).

(** [try: body / except socket.error as e: handler]. *)
Definition try_except {S A} (body : St S A) (handler : text -> St S A)
  : St S A := fun w =>
  match body w with
  | (Raise e, w') =>
      match socket_error e with
      | Some msg => handler msg w'
      | None => (Raise e, w')
      end
  | r => r
  end.

(** [while True: body], where the body yields [Some a] for [return a]
    and [None] when it falls through to the next iteration. *)
Fixpoint while_true {S A} (fuel : nat) (body : St S (option A)) : St S A :=
  match fuel with
  | O => fun w => (OutOfFuel, w)
  | S fuel' =>
      r <- body ;;
      match r with
      | Some a => ret a
      | None => while_true fuel' body
      end
  end.

(** ** The calls the client makes *)

Definition emit (e : event) (w : world) : world :=
  mkWorld (socks w) (net w) (log w ++ [e]).

Definition set_socket (s : nat) (sk : socket) (w : world) : world :=
  mkWorld (<[s := sk]> (socks w)) (net w) (log w).

Definition set_net (n : list connect_reply) (w : world) : world :=
  mkWorld (socks w) n (log w).

Definition print (line : text) : M unit := fun w => (Ok tt, emit (EvPrint line) w).

Definition sleep (secs : Q) : M unit := fun w => (Ok tt, emit (EvSleep secs) w).

(** [str(e)] of the errors the socket layer itself reports. *)
Definition ETIMEDOUT : exn := OSError (lit "timed out").
Definition EBADF : exn := OSError (lit "[Errno 9] Bad file descriptor").
Definition ENOTCONN : exn :=
  OSError (lit "[Errno 107] Transport endpoint is not connected").
Definition EISCONN : exn :=
  OSError (lit "[Errno 106] Transport endpoint is already connected").
Definition port_overflow : exn :=
  OverflowError (lit "connect(): port must be 0-65535.").

Definition c_int (n : Z) : bool := (- 2 ^ 31 <=? n) && (n <? 2 ^ 31).
Definition valid_port (port : Z) : bool := (0 <=? port) && (port <=? 65535).

(** A wait of [delay] on a socket with timeout [t] ends in
    [socket.timeout] when the timeout is set and runs out first. *)
Definition expires (t : option Q) (delay : Q) : bool :=
  match t with
  | Some t => Qle_bool t delay
  | None => false
  end.

(** [socket.socket(AF_INET, SOCK_STREAM)]: a new descriptor, blocking
    (no timeout), not connected. *)
Definition socket_new : M nat := fun w =>
  let s := length (socks w) in
  (Ok s, emit (EvSocket s)
           (mkWorld (socks w ++ [mkSocket None Unconnected []]) (net w) (log w))).

(** [sock.settimeout(t)]. *)
Definition settimeout (s : nat) (t : Q) : M unit := fun w =>
  match socks w !! s with
  | Some sk =>
      (Ok tt, emit (EvSetTimeout s t)
                (set_socket s (mkSocket (Some t) (status sk) (inbox sk)) w))
  | None => (Raise EBADF, emit (EvSetTimeout s t) w)
  end.

(** A host that [connect] takes as it is: ASCII, no null character. *)
Definition ascii_host (host : text) : bool :=
  forallb (fun c => (0 <? c)%N && (c <? 128)%N) host.

(** What CPython makes of the address before it touches the socket: the
    host has to be taken ([TypeError] otherwise), the port has to fit a
    C [int], then the host is resolved, then the port has to be a
    port.  An [Untaken] entry does not apply to a host that is always
    taken. *)
Definition address_error (host : text) (port : Z) (replies : list connect_reply)
  : option (exn * list connect_reply) :=
  match replies with
  | Untaken msg :: rest =>
      if ascii_host host
      then if valid_port port then None else Some (port_overflow, replies)
      else Some (TypeError msg, rest)
  | _ =>
      if negb (c_int port) then Some (port_overflow, replies)
      else match replies with
           | Unresolved msg :: rest => Some (OSError msg, rest)
           | _ => if valid_port port then None else Some (port_overflow, replies)
           end
  end.

(** [sock.connect((host, port))].  A network that has nothing more to
    say does not answer the attempt; nor is an attempt answered whose
    entry does not apply to the host. *)
Definition sock_connect (s : nat) (host : text) (port : Z) : M unit := fun w =>
  let failed (e : exn) (w' : world) : outcome unit * world :=
    (Raise e, emit (EvConnect s host port false) w') in
  match address_error host port (net w) with
  | Some (e, rest) => failed e (set_net rest w)
  | None =>
      match socks w !! s with
      | None => failed EBADF w
      | Some sk =>
          match status sk with
          | Closed => failed EBADF w
          | Connected => failed EISCONN w
          | Unconnected =>
              match net w with
              | [] =>
                  match timeout sk with
                  | Some _ => failed ETIMEDOUT w
                  | None => (Blocked, w)
                  end
              | Unresolved msg :: rest => failed (OSError msg) (set_net rest w)
              | Failed d msg :: rest =>
                  failed (if expires (timeout sk) d then ETIMEDOUT else OSError msg)
                         (set_net rest w)
              | Accepted d stream :: rest =>
                  if expires (timeout sk) d
                  then failed ETIMEDOUT (set_net rest w)
                  else (Ok tt,
                        emit (EvConnect s host port true)
                          (set_socket s (mkSocket (timeout sk) Connected stream)
                             (set_net rest w)))
              | Untaken _ :: rest =>
                  match timeout sk with
                  | Some _ => failed ETIMEDOUT (set_net rest w)
                  | None => (Blocked, w)
                  end
              end
          end
      end
  end.

(** What is still on its way after a wait of [t]. *)
Definition after_wait (t : Q) (box : list recv_reply) : list recv_reply :=
  match box with
  | [] => []
  | Data d payload :: rest => Data (d - t)%Q payload :: rest
  | Broken d msg :: rest => Broken (d - t)%Q msg :: rest
  end.

(** What is left in the socket once a read has taken [bufsize] bytes of
    [payload]. *)
Definition after_chunk (bufsize : nat) (payload : bytes)
    (rest : list recv_reply) : list recv_reply :=
  match drop bufsize payload with
  | [] => rest
  | more => Data 0%Q more :: rest
  end.

(** [sock.recv(bufsize)]: at most [bufsize] bytes of what has arrived;
    the rest stays in the socket.  A wait that outlasts the timeout
    raises [socket.timeout] and leaves what was on its way on its way.
    A peer that has nothing more to say stays silent. *)
Definition sock_recv (s : nat) (bufsize : nat) : M bytes := fun w =>
  let failed (e : exn) (w' : world) : outcome bytes * world :=
    (Raise e, emit (EvRecv s bufsize None) w') in
  match socks w !! s with
  | None => failed EBADF w
  | Some sk =>
      let keep (box : list recv_reply) : world :=
        set_socket s (mkSocket (timeout sk) (status sk) box) w in
      match status sk with
      | Closed => failed EBADF w
      | Unconnected => failed ENOTCONN w
      | Connected =>
          match inbox sk, timeout sk with
          | [], Some _ => failed ETIMEDOUT w
          | [], None => (Blocked, w)
          | Data d payload :: rest, t =>
              if expires t d
              then failed ETIMEDOUT (keep (after_wait (default 0%Q t) (inbox sk)))
              else
                let chunk := take bufsize payload in
                (Ok chunk,
                 emit (EvRecv s bufsize (Some chunk))
                   (keep (after_chunk bufsize payload rest)))
          | Broken d msg :: rest, t =>
              if expires t d
              then failed ETIMEDOUT (keep (after_wait (default 0%Q t) (inbox sk)))
              else failed (OSError msg) (keep rest)
          end
      end
  end.

(** [sock.send(data)]. *)
Definition sock_send (s : nat) (data : bytes) : M nat := fun w =>
  match status <$> socks w !! s with
  | Some Connected => (Ok (length data), emit (EvSend s data) w)
  | Some Unconnected => (Raise ENOTCONN, w)
  | _ => (Raise EBADF, w)
  end.

(** [sock.close()]. *)
Definition sock_close (s : nat) : M unit := fun w =>
  match socks w !! s with
  | Some sk =>
      (Ok tt, emit (EvClose s)
                (set_socket s (mkSocket (timeout sk) Closed (inbox sk)) w))
  | None => (Ok tt, emit (EvClose s) w)
  end.

(** [raw.decode()]. *)
Definition decode (raw : bytes) : M text :=
  match Utf8.decode raw with
  | Some data => ret data
  | None => raise (UnicodeDecodeError raw)
  end.

(** ** Local variables

    The variable [sock] of [connect_to_server] lives across the turns
    of its loop.  An attempt binds it to a new socket; the socket of
    the attempt before, which nothing else refers to, is then finalised
    by the runtime.  A [frame] is the world next to that variable, which
    is not bound when the call starts. *)
Definition frame : Type := option nat * world.

(** A call made from inside the function. *)
Definition lift {A} (m : M A) : St frame A := fun f =>
  let (r, w') := m (snd f) in (r, (fst f, w')).

(** The runtime finalises a socket object: the descriptor of a socket
    that the program has not closed is closed now. *)
Definition finalize (s : nat) (w : world) : world :=
  match socks w !! s with
  | Some sk =>
      match status sk with
      | Closed => w
      | _ => emit (EvFinalize s) w
      end
  | None => w
  end.

(** [sock = s], for [s] just made: the name is bound to [s], and the
    object it was bound to loses its last reference. *)
Definition assign (s : nat) : St frame unit := fun f =>
  (Ok tt,
   (Some s,
    match fst f with
    | Some old => if decide (old = s) then snd f else finalize old (snd f)
    | None => snd f
    end)).

(** Calling the function: it runs in a frame of its own. *)
Definition call {A} (body : St frame A) : M A := fun w =>
  let (r, f) := body (None, w) in (r, snd f).

(** ** client.py *)

Section Client.

(** The two module-level values, set once when the module is loaded. *)
Variable SERVER_HOST : text.
Variable SERVER_PORT : Z.

(** One turn of the loop of [listen_for_messages]. *)
Definition listen_for_messages_body (sock : nat) : M (option unit) :=
  try_except
    (raw <- sock_recv sock 1024 ;;
     data <- decode raw ;;
     match data with
     | [] =>
         print (lit "Server closed the connection.") ;;
         ret (Some tt)
     | _ =>
         print (lit "Received from server: " ++ Str.strip data) ;;
         ret None
     end)
    (fun e =>
       print (lit "Connection error: " ++ e) ;;
       ret (Some tt)).

Definition listen_for_messages (fuel : nat) (sock : nat) : M unit :=
  while_true fuel (listen_for_messages_body sock).

(** One turn of the loop of [connect_to_server], in the frame of the
    call. *)
Definition connect_to_server_body : St frame (option nat) :=
  try_except
    (lift (print (lit "Attempting to connect to " ++ SERVER_HOST ++ lit ":"
                  ++ str_of_int SERVER_PORT ++ lit "...")) ;;
     sock <- lift socket_new ;;
     assign sock ;;
     lift (settimeout sock 5.0%Q) ;;
     lift (sock_connect sock SERVER_HOST SERVER_PORT) ;;
     lift (print (lit "Connected to the server.")) ;;
     ret (Some sock))
    (fun e =>
       lift (print (lit "Connection failed: " ++ e
                    ++ lit ". Retrying in 5 seconds...")) ;;
       lift (sleep 5%Q) ;;
       ret None).

Definition connect_to_server (fuel : nat) : M nat :=
  call (while_true fuel connect_to_server_body).

(** One turn of the loop of [main]; it never returns from [main].  (The
    socket its [sock] was bound to in the turn before has been closed
    by then: finalising it does nothing more.) *)
Definition main_body (fuel : nat) : M (option Empty_set) :=
  sock <- connect_to_server fuel ;;
  listen_for_messages fuel sock ;;
  sock_close sock ;;
  print (lit "Connection lost. Reconnecting...") ;;
  ret None.

Definition main (fuel : nat) : M Empty_set :=
  while_true fuel (main_body fuel).

End Client.

(** ** Start-up: the configuration *)

(** [load_dotenv()]: the variables of the [.env] file (here already
    parsed) are added to the environment; those already set win. *)
Definition load_dotenv (dotenv environ : gmap string text) : gmap string text :=
  environ ∪ dotenv.

(** [os.getenv(key, default)]: the value when set, else the default as
    it was passed. *)
Definition getenv {D : Type} (environ : gmap string text) (key : string)
    (default : D) : text + D :=
  match environ !! key with
  | Some v => inl v
  | None => inr default
  end.

Section Startup.

(** [int(s)] for a [str]: [inl] is the [ValueError] it raises. *)
Variable int_of_str : text -> exn + Z.

(** The module-level assignments: [(SERVER_HOST, SERVER_PORT)]. *)
Definition module_init (dotenv environ : gmap string text) : exn + text * Z :=
  let environ := load_dotenv dotenv environ in
  let SERVER_HOST :=
    match getenv environ "SERVER_HOST" (lit "localhost") with
    | inl v => v
    | inr v => v
    end in
  match getenv environ "SERVER_PORT" 8080 with
  | inl s =>
      match int_of_str s with
      | inl e => inl e
      | inr n => inr (SERVER_HOST, n)
      end
  | inr n => inr (SERVER_HOST, n)
  end.

(** Running the script: load the module, then [main()]. *)
Definition client_py (dotenv environ : gmap string text) (fuel : nat)
  : M Empty_set :=
  match module_init dotenv environ with
  | inl e => raise e
  | inr (SERVER_HOST, SERVER_PORT) => main SERVER_HOST SERVER_PORT fuel
  end.

End Startup.

(** The value of a run of ASCII digits, most significant first. *)
Fixpoint digits_value (acc : Z) (s : text) : option Z :=
  match s with
  | [] => Some acc
  | c :: s' =>
      if ((48 <=? c) && (c <=? 57))%N
      then digits_value (10 * acc + Z.of_N (c - 48)) s'
      else None
  end.

(** The whitespace [int] skips at both ends of an ASCII [str]: that of
    C's [isspace]. *)
Definition c_isspace (c : N) : bool := ((9 <=? c) && (c <=? 13) || (c =? 32))%N.

Fixpoint skip_spaces (s : text) : text :=
  match s with
  | c :: s' => if c_isspace c then skip_spaces s' else s
  | [] => []
  end.

(** [int(s)] on plain decimal literals: optional surrounding
    whitespace, an optional sign, ASCII digits.  (Python's [int] takes
    more: underscores between digits and, in a [str] that is not ASCII,
    the whitespace and the decimal digits of other scripts; and the
    message of its [ValueError] goes on with the [repr] of [s].  This
    function only serves as an instance of [int_of_str] in the
    examples.) *)
Definition int_of_plain_decimal (s : text) : exn + Z :=
  let bad := inl (ValueError (lit "invalid literal for int() with base 10")) in
  let unsigned (ds : text) : option Z :=
    match ds with
    | [] => None
    | _ => digits_value 0 ds
    end in
  match rev (skip_spaces (rev (skip_spaces s))) with
  | 45%N :: ds => from_option (fun n => inr (- n)) bad (unsigned ds)
  | 43%N :: ds => from_option inr bad (unsigned ds)
  | ds => from_option inr bad (unsigned ds)
  end.

(** ** The order of a session, as an automaton over the log

    The client is either connecting (the socket of the attempt under
    way, once created) or receiving on the one open connection (and has
    read from it, or not yet).  A step that does not belong to the
    phase is refused: a read or a close while connecting, a close before
    the first read, a new socket or a connect while a connection is
    open, a connect to anything but the configured address, a send
    anywhere.  The runtime finalises sockets only while the client is
    connecting. *)
Module Protocol.

Inductive phase : Type :=
| Connecting (attempt : option nat)
| Receiving (s : nat) (read : bool).

Section Step.

Variable host : text.
Variable port : Z.

Definition step (q : phase) (e : event) : option phase :=
  match q, e with
  | _, EvPrint _ => Some q
  | Connecting _, EvSleep _ => Some q
  | Connecting _, EvSocket s => Some (Connecting (Some s))
  | Connecting _, EvFinalize _ => Some q
  | Connecting (Some c), EvSetTimeout s _ =>
      if decide (s = c) then Some q else None
  | Connecting (Some c), EvConnect s h p ok =>
      if decide (s = c ∧ h = host ∧ p = port)
      then Some (if ok then Receiving s false else Connecting None)
      else None
  | Receiving c _, EvRecv s _ _ =>
      if decide (s = c) then Some (Receiving c true) else None
  | Receiving c true, EvClose s =>
      if decide (s = c) then Some (Connecting None) else None
  | _, _ => None
  end.

Fixpoint run (q : phase) (evs : list event) : option phase :=
  match evs with
  | [] => Some q
  | e :: evs' =>
      match step q e with
      | Some q' => run q' evs'
      | None => None
      end
  end.

End Step.

End Protocol.

(** ** What the claims speak of *)

(** The line the Connector prints when an attempt fails. *)
Definition failure_notice (e : event) : bool :=
  match e with
  | EvPrint line => bool_decide (lit "Connection failed: " `prefix_of` line)
  | _ => false
  end.

Definition is_close (e : event) : bool :=
  match e with EvClose _ => true | _ => false end.

Definition is_send (e : event) : bool :=
  match e with EvSend _ _ => true | _ => false end.

(** How a connection attempt that gets reply [r] ends under the 5.0
    timeout: [Some msg] when it fails with a [socket.error], with
    [str(e)]; [None] when it succeeds, and when the reply is that the
    host is not taken. *)
Definition reply_error (r : connect_reply) : option text :=
  match r with
  | Unresolved msg => Some msg
  | Failed d msg => Some (if Qle_bool 5.0 d then lit "timed out" else msg)
  | Accepted d _ => if Qle_bool 5.0 d then Some (lit "timed out") else None
  | Untaken _ => None
  end.

(** The same for the attempt made when the network holds [replies]:
    without any reply the attempt times out. *)
Definition attempt_error (replies : list connect_reply) : option text :=
  match replies with
  | [] => Some (lit "timed out")
  | r :: _ => reply_error r
  end.

(** No reply of the peer reaches the socket before [t] has passed. *)
Definition silent_for (t : Q) (box : list recv_reply) : bool :=
  match box with
  | [] => true
  | Data d _ :: _ => Qle_bool t d
  | Broken d _ :: _ => Qle_bool t d
  end.

(** Removal of trailing whitespace only, as the specification words the
    display of a message. *)
Definition strip_trailing (s : text) : text := Str.rstrip s.

Section Traces.

Variable SERVER_HOST : text.
Variable SERVER_PORT : Z.

Definition attempting : event :=
  EvPrint (lit "Attempting to connect to " ++ SERVER_HOST ++ lit ":"
           ++ str_of_int SERVER_PORT ++ lit "...").

(** The effects of one failed attempt on socket [s]. *)
Definition failed_attempt (s : nat) (msg : text) : list event :=
  [ attempting; EvSocket s; EvSetTimeout s 5.0%Q;
    EvConnect s SERVER_HOST SERVER_PORT false;
    EvPrint (lit "Connection failed: " ++ msg
             ++ lit ". Retrying in 5 seconds...");
    EvSleep 5%Q ].

(** The effects of the successful attempt on socket [s]. *)
Definition successful_attempt (s : nat) : list event :=
  [ attempting; EvSocket s; EvSetTimeout s 5.0%Q;
    EvConnect s SERVER_HOST SERVER_PORT true;
    EvPrint (lit "Connected to the server.") ].

(** What the runtime does when [sock], bound to [prev], is bound to a
    new socket: the abandoned socket is finalised. *)
Definition released (prev : option nat) : list event :=
  match prev with
  | Some old => [EvFinalize old]
  | None => []
  end.

(** The effects of an attempt on socket [s] up to the connect call,
    made when [sock] is bound to [prev]. *)
Definition attempt_start (prev : option nat) (s : nat) : list event :=
  [attempting; EvSocket s] ++ released prev ++ [EvSetTimeout s 5.0%Q].

(** The effects of one failed attempt, and of the successful one, made
    when [sock] is bound to [prev]. *)
Definition failed_attempt_after (prev : option nat) (s : nat) (msg : text)
  : list event :=
  attempt_start prev s
  ++ [ EvConnect s SERVER_HOST SERVER_PORT false;
       EvPrint (lit "Connection failed: " ++ msg
                ++ lit ". Retrying in 5 seconds...");
       EvSleep 5%Q ].

Definition successful_attempt_after (prev : option nat) (s : nat)
  : list event :=
  attempt_start prev s
  ++ [ EvConnect s SERVER_HOST SERVER_PORT true;
       EvPrint (lit "Connected to the server.") ].

(** The effects of the failed attempts with messages [msgs], the first
    of them on socket [s] and made when [sock] is bound to [prev]: each
    of the later ones finalises the socket of the one before. *)
Fixpoint failed_attempts_after (prev : option nat) (s : nat)
    (msgs : list text) : list event :=
  match msgs with
  | [] => []
  | msg :: msgs' =>
      failed_attempt_after prev s msg ++ failed_attempts_after (Some s) (S s) msgs'
  end.

(** The same in a call of [connect_to_server], where [sock] is not
    bound before the first attempt. *)
Definition failed_attempts (s : nat) (msgs : list text) : list event :=
  failed_attempts_after None s msgs.

End Traces.

(** What [sock] is bound to after [k] attempts, the first of them on
    socket [s] and made when it was bound to [prev]. *)
Definition bound_after (prev : option nat) (s k : nat) : option nat :=
  match k with
  | O => prev
  | S k' => Some (s + k')%nat
  end.

(** The socket [sock] is bound to, if any, is one the program has not
    closed. *)
Definition unclosed (ss : list socket) (prev : option nat) : Prop :=
  match prev with
  | Some old => ∃ sk, ss !! old = Some sk ∧ status sk ≠ Closed
  | None => True
  end.

(** What the runtime does, by the socket table, when [sock], bound to
    [prev], is bound to [s]. *)
Definition released_in (ss : list socket) (prev : option nat) (s : nat)
  : list event :=
  match prev with
  | Some old =>
      if decide (old = s) then []
      else match ss !! old with
           | Some sk =>
               match status sk with
               | Closed => []
               | _ => [EvFinalize old]
               end
           | None => []
           end
  | None => []
  end.

(** The effects of receiving one chunk that decodes to [data]. *)
Definition received (s : nat) (chunk : bytes) (data : text) : list event :=
  [ EvRecv s 1024 (Some chunk);
    EvPrint (lit "Received from server: " ++ Str.strip data) ].


(** The effects of a reply that delivers one message to a socket with
    timeout [t]: a chunk that arrives in time, fits one read and decodes
    to text that is not empty. *)
Definition delivery (s : nat) (t : option Q) (r : recv_reply)
  : option (list event) :=
  match r with
  | Data d payload =>
      if expires t d || (1024 <? length payload)%nat then None
      else match Utf8.decode payload with
           | Some (c :: data) => Some (received s payload (c :: data))
           | _ => None
           end
  | Broken _ _ => None
  end.

(** The log keeps to the order of sessions: the effects logged since
    [before] take the automaton from the start of a connection attempt
    to some phase without being refused. *)
Definition in_order (host : text) (port : Z) (before after : list event) : Prop :=
  ∃ evs q, after = before ++ evs
           ∧ Protocol.run host port (Protocol.Connecting None) evs = Some q.

(** A computation keeps to the order of sessions from phase [q] on:
    whatever it logs is accepted from [q], and the phase reached
    satisfies [Q] when the computation returns, [E (Some e)] when it
    raises [e], and [E None] when it blocks or is cut short. *)
Definition follows {A} (host : text) (port : Z) (q : Protocol.phase)
    (m : M A) (Q : A → Protocol.phase → Prop)
    (E : option exn → Protocol.phase → Prop) : Prop :=
  ∀ w r w', m w = (r, w') →
    ∃ evs q', log w' = log w ++ evs
              ∧ Protocol.run host port q evs = Some q'
              ∧ match r with
                | Ok a => Q a q'
                | Raise e => E (Some e) q'
                | _ => E None q'
                end.

(** What the Receiver logs on socket [s]: its reads and its lines. *)
Definition receiver_event (s : nat) (e : event) : bool :=
  match e with
  | EvPrint _ => true
  | EvRecv s' _ _ => bool_decide (s' = s)
  | _ => false
  end.

Definition is_recv (e : event) : bool :=
  match e with EvRecv _ _ _ => true | _ => false end.

(** What is logged while the Connector runs: its own effects, and the
    runtime finalising a socket it has abandoned. *)
Definition connector_event (e : event) : bool :=
  match e with
  | EvPrint _ | EvSleep _ | EvSocket _ | EvSetTimeout _ _
  | EvConnect _ _ _ _ | EvFinalize _ => true
  | _ => false
  end.

Definition is_sleep (e : event) : bool :=
  match e with EvSleep _ => true | _ => false end.

(** How many of the events satisfy [f]. *)
Definition count {A} (f : A → bool) (l : list A) : nat :=
  length (List.filter f l).

(** ** Inputs for the examples *)

Definition localhost : text := lit "localhost".
Definition refused_msg : text := lit "[Errno 111] Connection refused".
Definition reset_msg : text := lit "[Errno 104] Connection reset by peer".
Definition refused : connect_reply := Failed 1 refused_msg.
Definition fresh_socket : socket := mkSocket (Some 5.0%Q) Unconnected [].

(** A world with one socket, connected, and [box] on its way to it. *)
Definition connected (box : list recv_reply) : world :=
  mkWorld [mkSocket (Some 5.0%Q) Connected box] [] [].

(** The bytes of ["hello\n"] and of [" hello\n"]. *)
Definition hello_nl : bytes := ascii_bytes "hello" ++ [x0a].
Definition sp_hello_nl : bytes := ascii_bytes " hello" ++ [x0a].

(** The sockets created in a log, in order. *)
Definition created (evs : list event) : list nat :=
  omap (fun e => match e with EvSocket s => Some s | _ => None end) evs.

(** ** What the further properties speak of *)

(** The host lookup of the attempt made when the network holds
    [replies] succeeds (the host has been taken, then). *)
Definition resolved (replies : list connect_reply) : bool :=
  match replies with
  | Unresolved _ :: _ | Untaken _ :: _ => false
  | _ => true
  end.

(** The socket is an open connection. *)
Definition is_open (sk : socket) : bool :=
  match status sk with
  | Connected => true
  | _ => false
  end.

(** The pieces in which successive reads of 1024 bytes take a payload
    of at most [n] pieces. *)
Fixpoint chunks (n : nat) (payload : bytes) : list bytes :=
  match n, payload with
  | S n', _ :: _ => take 1024 payload :: chunks n' (drop 1024 payload)
  | _, _ => []
  end.

(** The effects of reading one piece and showing it, when it decodes to
    text that is not empty. *)
Definition shown (s : nat) (chunk : bytes) : option (list event) :=
  match Utf8.decode chunk with
  | Some (c :: data) => Some (received s chunk (c :: data))
  | _ => None
  end.

(** The effects of the Receiver on socket [s] over a stream of messages
    that ends with the peer closing the connection, each arriving
    before the timeout of 5.0. *)
Fixpoint stream_events (s : nat) (stream : list recv_reply)
  : option (list event) :=
  match stream with
  | [] => None
  | [Data d []] =>
      if Qle_bool 5.0 d then None
      else Some [EvRecv s 1024 (Some []);
                 EvPrint (lit "Server closed the connection.")]
  | r :: rest =>
      evs ← delivery s (Some 5.0%Q) r;
      tl ← stream_events s rest;
      Some (evs ++ tl)
  end.

(** The effects of the Session Loop over accepted connections that each
    end in a clean close, the first of them on socket [s]. *)
Fixpoint sessions_events (host : text) (port : Z) (s : nat)
    (replies : list connect_reply) : option (list event) :=
  match replies with
  | [] => Some []
  | Accepted d stream :: rest =>
      if Qle_bool 5.0 d then None
      else
        evs ← stream_events s stream;
        tl ← sessions_events host port (S s) rest;
        Some (successful_attempt host port s ++ evs
              ++ [EvClose s; EvPrint (lit "Connection lost. Reconnecting...")]
              ++ tl)
  | _ => None
  end.

(** The longest stream among the replies. *)
Definition longest_stream (replies : list connect_reply) : nat :=
  foldr (fun r m => match r with
                    | Accepted _ stream => Nat.max (length stream) m
                    | _ => m
                    end) 0%nat replies.

(** Everything the peer sends is ASCII. *)
Definition ascii_payload (r : recv_reply) : bool :=
  match r with
  | Data _ payload => forallb (fun b => (Byte.to_N b <? 128)%N) payload
  | Broken _ _ => true
  end.

Definition ascii_reply (r : connect_reply) : bool :=
  match r with
  | Accepted _ stream => forallb ascii_payload stream
  | _ => true
  end.

Definition ascii_world (w : world) : bool :=
  forallb ascii_reply (net w)
  && forallb (fun sk => forallb ascii_payload (inbox sk)) (socks w).

(** The sockets closed in a log, in order. *)
Definition closed (evs : list event) : list nat :=
  omap (fun e => match e with EvClose s => Some s | _ => None end) evs.

(** The sockets the runtime has finalised in a log, in order. *)
Definition finalized (evs : list event) : list nat :=
  omap (fun e => match e with EvFinalize s => Some s | _ => None end) evs.

(** The invariant behind [ascii_world], as a proposition. *)
Definition ascii_invariant (w : world) : Prop :=
  Forall (fun r => ascii_reply r = true) (net w)
  ∧ Forall (fun sk => Forall (fun r => ascii_payload r = true) (inbox sk))
           (socks w).

(** * Properties *)

(** ** Decoding and stripping *)

Example decode_hello :
  Utf8.decode (ascii_bytes "hello") = Some (lit "hello").
Proof. reflexivity. Qed.

Example decode_euro : Utf8.decode [xe2; x82; xac] = Some [8364%N].
Proof. reflexivity. Qed.

Example decode_ff : Utf8.decode [xff] = None.
Proof. reflexivity. Qed.

Example decode_overlong : Utf8.decode [xc0; x80] = None.
Proof. reflexivity. Qed.

Example decode_surrogate : Utf8.decode [xed; xa0; x80] = None.
Proof. reflexivity. Qed.

Example decode_split_character : Utf8.decode [xe2; x82] = None.
Proof. reflexivity. Qed.

Example strip_both_ends :
  Str.strip (map Byte.to_N sp_hello_nl) = lit "hello".
Proof. reflexivity. Qed.

Example strip_trailing_only :
  strip_trailing (map Byte.to_N sp_hello_nl) = lit " hello".
Proof. reflexivity. Qed.

Example str_of_int_8080 : str_of_int 8080 = lit "8080".
Proof. reflexivity. Qed.

Example int_of_plain_decimal_9000 :
  int_of_plain_decimal (lit " 9000 ") = inr 9000.
Proof. reflexivity. Qed.

Lemma decode_N_nil (bs : list N) : Utf8.decode_N bs = Some [] → bs = [].
Proof.
  destruct bs as [|b0 r0]; [done|]. cbn [Utf8.decode_N].
  repeat (case_match; try done); by destruct (Utf8.decode_N _).
Qed.

(** Only the empty chunk decodes to the empty text. *)
Lemma decode_nil (raw : bytes) : Utf8.decode raw = Some [] → raw = [].
Proof.
  unfold Utf8.decode. intros H%decode_N_nil. by destruct raw.
Qed.

(** ** The monad *)

Ltac run_m :=
  unfold bind, ret, raise, try_except, print, sleep, decode,
         emit, set_socket, set_net; cbn.

(** Logs as lists nested to the right. *)
Ltac log_norm :=
  repeat (progress (rewrite <- ?app_assoc; cbn [app]));
  rewrite ?app_nil_r.

Lemma while_true_S {S A} (fuel : nat) (body : St S (option A)) (w : S) :
  while_true (Datatypes.S fuel) body w =
    match body w with
    | (Ok (Some a), w') => (Ok a, w')
    | (Ok None, w') => while_true fuel body w'
    | (Raise e, w') => (Raise e, w')
    | (Blocked, w') => (Blocked, w')
    | (OutOfFuel, w') => (OutOfFuel, w')
    end.
Proof.
  cbn [while_true]. unfold bind. by destruct (body w) as [[[a|]|e| |] w'].
Qed.

(** ** The socket calls on the modelled network *)

Section Recv.

Variables (ss : list socket) (n : list connect_reply) (g : list event).
Variables (s : nat) (t : option Q) (box : list recv_reply).
Hypothesis (Hs : ss !! s = Some (mkSocket t Connected box)).

Lemma sock_recv_data bufsize d payload rest :
  box = Data d payload :: rest →
  expires t d = false →
  sock_recv s bufsize (mkWorld ss n g) =
    (Ok (take bufsize payload),
     mkWorld (<[s := mkSocket t Connected (after_chunk bufsize payload rest)]> ss)
             n (g ++ [EvRecv s bufsize (Some (take bufsize payload))])).
Proof using Hs.
  intros -> Hd. unfold sock_recv. cbn. rewrite Hs. cbn. by rewrite Hd.
Qed.

Lemma sock_recv_broken bufsize d msg rest :
  box = Broken d msg :: rest →
  expires t d = false →
  sock_recv s bufsize (mkWorld ss n g) =
    (Raise (OSError msg),
     mkWorld (<[s := mkSocket t Connected rest]> ss) n
             (g ++ [EvRecv s bufsize None])).
Proof using Hs.
  intros -> Hd. unfold sock_recv. cbn. rewrite Hs. cbn. by rewrite Hd.
Qed.

Lemma sock_recv_timeout bufsize t0 :
  t = Some t0 →
  silent_for t0 box = true →
  sock_recv s bufsize (mkWorld ss n g) =
    (Raise ETIMEDOUT,
     mkWorld (<[s := mkSocket t Connected (after_wait t0 box)]> ss) n
             (g ++ [EvRecv s bufsize None])).
Proof using Hs.
  intros -> Hd. unfold sock_recv. cbn. rewrite Hs. cbn.
  destruct box as [|[d payload|d msg] rest]; cbn in *; rewrite ?Hd; cbn;
    try done.
  unfold emit, set_socket; cbn. by rewrite list_insert_id.
Qed.

End Recv.

(** A read raises nothing but [socket.error]. *)
Lemma sock_recv_raises s bufsize w e w' :
  sock_recv s bufsize w = (Raise e, w') → ∃ msg, e = OSError msg.
Proof.
  unfold sock_recv.
  repeat (case_match; try done); intros [= <- _];
    unfold ETIMEDOUT, EBADF, ENOTCONN; eauto.
Qed.

(** ** One turn of the Receiver *)

(** The turn, by what the read does. *)
Lemma listen_body_eq (s : nat) (w : world) :
  listen_for_messages_body s w =
    match sock_recv s 1024 w with
    | (Ok raw, w1) =>
        match Utf8.decode raw with
        | None => (Raise (UnicodeDecodeError raw), w1)
        | Some [] =>
            (Ok (Some tt), emit (EvPrint (lit "Server closed the connection.")) w1)
        | Some data =>
            (Ok None,
             emit (EvPrint (lit "Received from server: " ++ Str.strip data)) w1)
        end
    | (Raise e, w1) =>
        match socket_error e with
        | Some msg =>
            (Ok (Some tt), emit (EvPrint (lit "Connection error: " ++ msg)) w1)
        | None => (Raise e, w1)
        end
    | (Blocked, w1) => (Blocked, w1)
    | (OutOfFuel, w1) => (OutOfFuel, w1)
    end.
Proof.
  unfold listen_for_messages_body, try_except, bind.
  destruct (sock_recv s 1024 w) as [[raw|e| |] w1];
    [ unfold decode; by destruct (Utf8.decode raw) as [[|c data]|]
    | by destruct (socket_error e) | done | done ].
Qed.

Lemma listen_S (fuel s : nat) (w : world) :
  listen_for_messages (S fuel) s w =
    match listen_for_messages_body s w with
    | (Ok (Some a), w') => (Ok a, w')
    | (Ok None, w') => listen_for_messages fuel s w'
    | (Raise e, w') => (Raise e, w')
    | (Blocked, w') => (Blocked, w')
    | (OutOfFuel, w') => (OutOfFuel, w')
    end.
Proof. apply while_true_S. Qed.

(** ** One turn of the Connector *)

Lemma lookup_snoc_last {A} (l : list A) (x : A) : (l ++ [x]) !! length l = Some x.
Proof. by apply list_lookup_middle. Qed.

Lemma insert_snoc_last {A} (l : list A) (x y : A) :
  <[length l := y]> (l ++ [x]) = l ++ [y].
Proof. by rewrite <- (Nat.add_0_r (length l)), insert_app_r. Qed.

Lemma valid_port_c_int (port : Z) : valid_port port = true → c_int port = true.
Proof.
  unfold valid_port, c_int. change (2 ^ 31) with 2147483648.
  rewrite !andb_true_iff. lia.
Qed.

Section Connect.

Variables (host : text) (port : Z).
Hypothesis (Hport : valid_port port = true).
Variables (ss : list socket) (n : list connect_reply) (g : list event).

Lemma sock_connect_fails msg :
  attempt_error n = Some msg →
  sock_connect (length ss) host port (mkWorld (ss ++ [fresh_socket]) n g) =
    (Raise (OSError msg),
     mkWorld (ss ++ [fresh_socket]) (tail n)
             (g ++ [EvConnect (length ss) host port false])).
Proof using Hport.
  intros Hn. unfold sock_connect, address_error. cbn.
  rewrite valid_port_c_int, Hport by done. cbn.
  destruct n as [|[m|d m|d stream|m] rest]; cbn in *; simplify_eq;
    rewrite ?lookup_snoc_last; cbn; try done.
  all: by destruct (Qle_bool _ d); simplify_eq.
Qed.

Lemma sock_connect_succeeds d stream rest :
  n = Accepted d stream :: rest →
  Qle_bool 5.0 d = false →
  sock_connect (length ss) host port (mkWorld (ss ++ [fresh_socket]) n g) =
    (Ok tt,
     mkWorld (ss ++ [mkSocket (Some 5.0%Q) Connected stream]) rest
             (g ++ [EvConnect (length ss) host port true])).
Proof using Hport.
  intros -> Hd. unfold sock_connect, address_error. cbn.
  rewrite valid_port_c_int, Hport by done. cbn.
  rewrite lookup_snoc_last. cbn. rewrite Hd.
  unfold emit, set_socket, set_net. cbn. by rewrite insert_snoc_last.
Qed.

(** An entry that does not apply to the host: the attempt times out. *)
Lemma sock_connect_unanswered msg rest :
  ascii_host host = true →
  n = Untaken msg :: rest →
  sock_connect (length ss) host port (mkWorld (ss ++ [fresh_socket]) n g) =
    (Raise ETIMEDOUT,
     mkWorld (ss ++ [fresh_socket]) rest
             (g ++ [EvConnect (length ss) host port false])).
Proof using Hport.
  intros Hhost ->. unfold sock_connect, address_error. cbn.
  rewrite Hhost, Hport. by rewrite lookup_snoc_last.
Qed.

End Connect.

(** The runtime's part in a turn of the Connector, when [sock] is bound
    to a socket the program has not closed. *)
Lemma released_in_unclosed (ss : list socket) (x : socket) (prev : option nat) :
  unclosed ss prev → released_in (ss ++ [x]) prev (length ss) = released prev.
Proof.
  destruct prev as [old|]; [|done]. intros (sk & Hold & Hst). cbn.
  pose proof (lookup_lt_Some _ _ _ Hold) as Hlt.
  rewrite decide_False by lia.
  rewrite lookup_app_l, Hold by done. by destruct (status sk).
Qed.

Lemma unclosed_snoc (ss : list socket) (sk : socket) :
  status sk ≠ Closed → unclosed (ss ++ [sk]) (Some (length ss)).
Proof. intros Hst. exists sk. by rewrite lookup_snoc_last. Qed.

Lemma unclosed_bound_after (ss : list socket) (prev : option nat) (k : nat) :
  unclosed ss prev →
  unclosed (ss ++ replicate k fresh_socket) (bound_after prev (length ss) k).
Proof.
  destruct k as [|k]; cbn [bound_after].
  - by rewrite app_nil_r.
  - intros _. exists fresh_socket. split; [|done].
    rewrite lookup_app_r by lia.
    apply lookup_replicate. split; [done|lia].
Qed.

Lemma finalize_eq (old : nat) (w : world) :
  finalize old w
  = mkWorld (socks w) (net w)
      (log w ++ match socks w !! old with
                | Some sk => match status sk with
                             | Closed => []
                             | _ => [EvFinalize old]
                             end
                | None => []
                end).
Proof.
  unfold finalize. destruct w as [ss n g]. cbn.
  destruct (ss !! old) as [[t [] box]|]; cbn; by rewrite ?app_nil_r.
Qed.

Lemma assign_eq (s : nat) (prev : option nat) (w : world) :
  assign s (prev, w)
  = (Ok tt,
     (Some s,
      mkWorld (socks w) (net w) (log w ++ released_in (socks w) prev s))).
Proof.
  unfold assign, released_in. cbn [fst snd]. destruct w as [ss n g].
  cbn [socks net log]. destruct prev as [old|]; [|by rewrite app_nil_r].
  destruct (decide (old = s)); [by rewrite app_nil_r|]. by rewrite finalize_eq.
Qed.

(** The turn, by what the connect call does.  Whatever comes of it,
    [sock] is bound to the socket of the turn afterwards. *)
Lemma connect_body_eq (host : text) (port : Z) (prev : option nat) (w : world) :
  connect_to_server_body host port (prev, w) =
    let s := length (socks w) in
    let bound (r : outcome (option nat)) (w' : world) := (r, (Some s, w')) in
    match sock_connect s host port
            (mkWorld (socks w ++ [fresh_socket]) (net w)
               (log w ++ [attempting host port; EvSocket s]
                  ++ released_in (socks w ++ [mkSocket None Unconnected []]) prev s
                  ++ [EvSetTimeout s 5.0%Q])) with
    | (Ok _, w2) =>
        bound (Ok (Some s)) (emit (EvPrint (lit "Connected to the server.")) w2)
    | (Raise e, w2) =>
        match socket_error e with
        | Some msg =>
            bound (Ok None)
              (emit (EvSleep 5%Q)
                 (emit (EvPrint (lit "Connection failed: " ++ msg
                                 ++ lit ". Retrying in 5 seconds...")) w2))
        | None => bound (Raise e) w2
        end
    | (Blocked, w2) => bound Blocked w2
    | (OutOfFuel, w2) => bound OutOfFuel w2
    end.
Proof.
  destruct w as [ss n g].
  unfold connect_to_server_body, try_except, bind, lift, socket_new,
    settimeout, print, sleep, ret, emit.
  cbn [fst snd socks net log]. rewrite assign_eq. cbn [fst snd socks net log].
  rewrite lookup_snoc_last. cbn [fst snd socks net log status inbox].
  unfold set_socket. cbn [socks net log].
  rewrite insert_snoc_last, <- !app_assoc. cbn [app].
  fold fresh_socket.
  destruct (sock_connect _ _ _ _) as [[[]|e| |] w2]; cbn; try done.
Qed.

Section Connector.

Variables (host : text) (port : Z).
Hypothesis (Hport : valid_port port = true).

Abbreviation turn := (connect_to_server_body host port).

Lemma connect_body_fails (prev : option nat) (w : world) (msg : text) :
  unclosed (socks w) prev →
  attempt_error (net w) = Some msg →
  turn (prev, w) =
    (Ok None,
     (Some (length (socks w)),
      mkWorld (socks w ++ [fresh_socket]) (tail (net w))
        (log w ++ failed_attempt_after host port prev (length (socks w)) msg))).
Proof using Hport.
  intros Hprev Hn. rewrite connect_body_eq. cbn zeta.
  rewrite released_in_unclosed by done.
  rewrite (sock_connect_fails _ _ Hport _ _ _ msg Hn). cbn.
  unfold emit, failed_attempt_after, attempt_start. cbn [socks net log].
  by log_norm.
Qed.

Lemma connect_body_succeeds (prev : option nat) (w : world) d stream rest :
  unclosed (socks w) prev →
  net w = Accepted d stream :: rest →
  Qle_bool 5.0 d = false →
  turn (prev, w) =
    (Ok (Some (length (socks w))),
     (Some (length (socks w)),
      mkWorld (socks w ++ [mkSocket (Some 5.0%Q) Connected stream]) rest
        (log w ++ successful_attempt_after host port prev (length (socks w))))).
Proof using Hport.
  intros Hprev Hn Hd. rewrite connect_body_eq. cbn zeta.
  rewrite released_in_unclosed by done.
  rewrite (sock_connect_succeeds _ _ Hport _ _ _ d stream rest Hn Hd). cbn.
  unfold emit, successful_attempt_after, attempt_start. cbn [socks net log].
  by log_norm.
Qed.

(** Under a valid port and with a host that is always taken, a turn of
    the Connector ends in one of these two ways, whatever the network
    does. *)
Lemma connect_body_total (prev : option nat) (w : world) :
  ascii_host host = true →
  ∃ (r : option nat) (f : frame), turn (prev, w) = (Ok r, f).
Proof using Hport.
  intros Hhost. rewrite connect_body_eq. cbn zeta.
  destruct (attempt_error (net w)) as [msg|] eqn:Hn.
  - rewrite (sock_connect_fails _ _ Hport _ _ _ msg Hn). cbn. eauto.
  - destruct (net w) as [|[m|d m|d stream|m] rest] eqn:Hnet; cbn in Hn;
      try done.
    + destruct (Qle_bool 5.0 d) eqn:Hd; [done|].
      rewrite (sock_connect_succeeds _ _ Hport _ _ _ d stream rest eq_refl Hd).
      eauto.
    + rewrite (sock_connect_unanswered _ _ Hport _ _ _ m rest Hhost eq_refl).
      cbn. eauto.
Qed.

(** The failed attempts are gone through one by one, each on a socket
    of its own that is left as it is in the table; from the second on,
    each finalises the socket of the one before. *)
Lemma connect_retries (fails : list connect_reply) (msgs : list text) :
  Forall2 (fun r msg => reply_error r = Some msg) fails msgs →
  ∀ (fuel : nat) prev ss rest g,
    unclosed ss prev →
    while_true (length fails + fuel) turn
      (prev, mkWorld ss (fails ++ rest) g) =
    while_true fuel turn
      (bound_after prev (length ss) (length fails),
       mkWorld (ss ++ replicate (length fails) fresh_socket) rest
               (g ++ failed_attempts_after host port prev (length ss) msgs)).
Proof using Hport.
  induction 1 as [|r msg fails msgs Hr _ IH]; intros fuel prev ss rest g Hprev.
  - cbn. by rewrite !app_nil_r.
  - cbn [length Nat.add]. rewrite while_true_S.
    rewrite (connect_body_fails _ _ msg) by done. cbn [socks net log tail app].
    rewrite IH by (by apply unclosed_snoc). rewrite length_app. cbn.
    rewrite Nat.add_1_r.
    replace (bound_after (Some (length ss)) (S (length ss)) (length fails))
      with (Some (length ss + length fails)%nat)
      by (destruct fails; cbn; f_equal; lia).
    by log_norm.
Qed.

(** The Connector raises nothing, when the port is valid and the host
    always taken. *)
Lemma connect_loop_never_raises (fuel : nat) (prev : option nat) (w : world) :
  ascii_host host = true →
  ∃ f, while_true fuel turn (prev, w) = (OutOfFuel, f)
       ∨ ∃ s, while_true fuel turn (prev, w) = (Ok s, f).
Proof using Hport.
  intros Hhost. revert prev w.
  induction fuel as [|fuel IH]; intros prev w; [by eauto|].
  rewrite while_true_S.
  destruct (connect_body_total prev w Hhost) as ([s|] & [prev' w'] & ->);
    [by eauto|].
  apply IH.
Qed.

Lemma connect_never_raises (fuel : nat) (w : world) :
  ascii_host host = true →
  ∃ w', connect_to_server host port fuel w = (OutOfFuel, w')
        ∨ ∃ s, connect_to_server host port fuel w = (Ok s, w').
Proof using Hport.
  intros Hhost. unfold connect_to_server, call.
  destruct (connect_loop_never_raises fuel None w Hhost)
    as [[prev w'] [->|[s ->]]]; eauto.
Qed.

(** The first attempt of a call, accepted in time. *)
Lemma connect_first_succeeds (fuel : nat) (w : world) d stream rest :
  net w = Accepted d stream :: rest →
  Qle_bool 5.0 d = false →
  connect_to_server host port (S fuel) w =
    (Ok (length (socks w)),
     mkWorld (socks w ++ [mkSocket (Some 5.0%Q) Connected stream]) rest
       (log w ++ successful_attempt host port (length (socks w)))).
Proof using Hport.
  intros Hn Hd. unfold connect_to_server, call. rewrite while_true_S.
  by rewrite (connect_body_succeeds None w d stream rest).
Qed.

End Connector.


(** ** The Receiver over a run of messages *)

Lemma listen_delivers (s : nat) (t : option Q) (n : list connect_reply)
    (goods : list recv_reply) (traces : list (list event)) :
  Forall2 (fun r evs => delivery s t r = Some evs) goods traces →
  ∀ (fuel : nat) ss g tail,
    ss !! s = Some (mkSocket t Connected (goods ++ tail)) →
    listen_for_messages (length goods + fuel) s (mkWorld ss n g) =
    listen_for_messages fuel s
      (mkWorld (<[s := mkSocket t Connected tail]> ss) n (g ++ concat traces)).
Proof.
  induction 1 as [|r evs goods traces Hr _ IH]; intros fuel ss g tail Hs.
  - cbn in *. by rewrite app_nil_r, list_insert_id.
  - cbn [length Nat.add]. rewrite listen_S, listen_body_eq.
    destruct r as [d payload|]; [|done]. unfold delivery in Hr.
    destruct (expires t d) eqn:Hd; [done|].
    destruct (1024 <? length payload)%nat eqn:Hlen; [done|]. cbn in Hr.
    apply Nat.ltb_ge in Hlen.
    rewrite (sock_recv_data ss n g s t _ Hs 1024 d payload (goods ++ tail))
      by done.
    unfold after_chunk. rewrite take_ge, drop_ge by done.
    destruct (Utf8.decode payload) as [[|c data]|]; simplify_eq.
    unfold emit. cbn [socks net log].
    rewrite IH with (tail := tail).
    + rewrite list_insert_insert_eq. cbn. unfold received.
      by rewrite <- !app_assoc.
    + apply list_lookup_insert_eq. by eapply lookup_lt_Some.
Qed.

(** ** One turn of the Session Loop *)

Lemma main_body_eq (host : text) (port : Z) (fuel : nat) (w : world) :
  main_body host port fuel w =
    match connect_to_server host port fuel w with
    | (Ok s, w1) =>
        match listen_for_messages fuel s w1 with
        | (Ok _, w2) =>
            (Ok None,
             emit (EvPrint (lit "Connection lost. Reconnecting..."))
               (snd (sock_close s w2)))
        | (Raise e, w2) => (Raise e, w2)
        | (Blocked, w2) => (Blocked, w2)
        | (OutOfFuel, w2) => (OutOfFuel, w2)
        end
    | (Raise e, w1) => (Raise e, w1)
    | (Blocked, w1) => (Blocked, w1)
    | (OutOfFuel, w1) => (OutOfFuel, w1)
    end.
Proof.
  unfold main_body, bind.
  destruct (connect_to_server host port fuel w) as [[s|e| |] w1]; try done.
  destruct (listen_for_messages fuel s w1) as [[[]|e| |] w2]; try done.
  unfold sock_close. by destruct (socks w2 !! s).
Qed.

Lemma sock_close_log (s : nat) (w : world) :
  log (snd (sock_close s w)) = log w ++ [EvClose s].
Proof. unfold sock_close. by destruct (socks w !! s). Qed.

Lemma sock_close_status (s : nat) (w : world) (sk : socket) :
  socks w !! s = Some sk →
  socks (snd (sock_close s w)) !! s
    = Some (mkSocket (timeout sk) Closed (inbox sk)).
Proof.
  intros Hs. unfold sock_close. rewrite Hs. cbn.
  apply list_lookup_insert_eq. by eapply lookup_lt_Some.
Qed.

(** ** The order of sessions *)

Section Order.

Import Protocol.

Variables (host : text) (port : Z).

Abbreviation run := (Protocol.run host port).
Abbreviation step := (Protocol.step host port).
Abbreviation follows := (follows host port).

Lemma run_app q evs1 evs2 :
  run q (evs1 ++ evs2) = run q evs1 ≫= fun q' => run q' evs2.
Proof.
  revert q. induction evs1 as [|e evs1 IH]; intros q; cbn; [done|].
  destruct (step q e); cbn; [apply IH|done].
Qed.

Lemma run_snoc q evs e q' :
  run q evs = Some q' → run q (evs ++ [e]) = step q' e.
Proof.
  intros H. rewrite run_app, H. cbn. by destruct (step q' e).
Qed.

(** *** Rules *)

Implicit Types (q : phase) (E : option exn → phase → Prop).

Lemma follows_ret {A} q (a : A) (Q : A → phase → Prop) E :
  Q a q → follows q (ret a) Q E.
Proof.
  intros HQ w r w' [= <- <-]. exists [], q. by rewrite app_nil_r.
Qed.

Lemma follows_raise {A} q e (Q : A → phase → Prop) E :
  E (Some e) q → follows q (raise e) Q E.
Proof.
  intros HE w r w' [= <- <-]. exists [], q. by rewrite app_nil_r.
Qed.

Lemma follows_weaken {A} q (m : M A) (Q Q' : A → phase → Prop) E E' :
  follows q m Q E →
  (∀ a q', Q a q' → Q' a q') → (∀ o q', E o q' → E' o q') →
  follows q m Q' E'.
Proof.
  intros Hm HQ HE w r w' Hrun.
  destruct (Hm w r w' Hrun) as (evs & q' & Hlog & Hq & Hr).
  exists evs, q'. split_and!; [done..|]. destruct r; eauto.
Qed.

Lemma follows_bind_weak {A B} q (m : M A) (k : A → M B)
    (Q : A → phase → Prop) (R : B → phase → Prop) E1 E :
  follows q m Q E1 →
  (∀ o q', E1 o q' → E o q') →
  (∀ a q', Q a q' → follows q' (k a) R E) →
  follows q (bind m k) R E.
Proof.
  intros Hm HE Hk w r w'. unfold bind.
  destruct (m w) as [ra w1] eqn:Hmw.
  destruct (Hm w ra w1 Hmw) as (evs1 & q1 & Hlog1 & Hq1 & Hr1).
  destruct ra as [a|e| |].
  - intros Hkw.
    destruct (Hk a q1 Hr1 w1 r w' Hkw) as (evs2 & q2 & Hlog2 & Hq2 & Hr2).
    exists (evs1 ++ evs2), q2.
    rewrite Hlog2, Hlog1, run_app, Hq1, app_assoc. done.
  - intros [= <- <-]. exists evs1, q1. eauto.
  - intros [= <- <-]. exists evs1, q1. eauto.
  - intros [= <- <-]. exists evs1, q1. eauto.
Qed.

Lemma follows_bind {A B} q (m : M A) (k : A → M B)
    (Q : A → phase → Prop) (R : B → phase → Prop) E :
  follows q m Q E →
  (∀ a q', Q a q' → follows q' (k a) R E) →
  follows q (bind m k) R E.
Proof. intros Hm Hk. by eapply follows_bind_weak. Qed.

Lemma follows_try_except {A} q (body : M A) (handler : text → M A)
    (Q : A → phase → Prop) E' E :
  follows q body Q E' →
  (∀ e msg q', socket_error e = Some msg → E' (Some e) q' →
     follows q' (handler msg) Q E) →
  (∀ e q', socket_error e = None → E' (Some e) q' → E (Some e) q') →
  (∀ q', E' None q' → E None q') →
  follows q (try_except body handler) Q E.
Proof.
  intros Hb Hh HE HN w r w'. unfold try_except.
  destruct (body w) as [rb w1] eqn:Hbw.
  destruct (Hb w rb w1 Hbw) as (evs1 & q1 & Hlog1 & Hq1 & Hr1).
  destruct rb as [a|e| |].
  - intros [= <- <-]. by exists evs1, q1.
  - destruct (socket_error e) as [msg|] eqn:He.
    + intros Hhw.
      destruct (Hh e msg q1 He Hr1 w1 r w' Hhw)
        as (evs2 & q2 & Hlog2 & Hq2 & Hr2).
      exists (evs1 ++ evs2), q2.
      rewrite Hlog2, Hlog1, run_app, Hq1, app_assoc. done.
    + intros [= <- <-]. exists evs1, q1. eauto.
  - intros [= <- <-]. exists evs1, q1. eauto.
  - intros [= <- <-]. exists evs1, q1. eauto.
Qed.

(** The loop rule: [I] holds at the head of every turn. *)
Lemma follows_while_true {A} (body : M (option A)) (I : phase → Prop)
    (Q : A → phase → Prop) E :
  (∀ q, I q →
     follows q body
       (fun r q' => match r with Some a => Q a q' | None => I q' end) E) →
  (∀ q, I q → E None q) →
  ∀ fuel q, I q → follows q (while_true fuel body) Q E.
Proof.
  intros Hbody HIE fuel.
  induction fuel as [|fuel IH]; intros q Hq.
  - intros w r w' [= <- <-]. exists [], q. rewrite app_nil_r. eauto.
  - cbn [while_true]. eapply follows_bind; [by apply Hbody|].
    intros [a|] q' Hq'; [by apply follows_ret|by apply IH].
Qed.

(** *** The calls *)

Ltac by_emit :=
  split; [reflexivity|]; split; [|reflexivity]; reflexivity.

Lemma follows_print q line E :
  follows q (print line) (fun _ q' => q' = q) E.
Proof.
  intros w r w' [= <- <-]. exists [EvPrint line], q.
  by destruct q as [[|]|? []].
Qed.

Lemma follows_sleep c secs E :
  follows (Connecting c) (sleep secs) (fun _ q' => q' = Connecting c) E.
Proof.
  intros w r w' [= <- <-]. exists [EvSleep secs], (Connecting c).
  by destruct c.
Qed.

Lemma follows_socket_new c E :
  follows (Connecting c) socket_new (fun s q' => q' = Connecting (Some s)) E.
Proof.
  intros w r w' [= <- <-].
  exists [EvSocket (length (socks w))], (Connecting (Some (length (socks w)))).
  by destruct c.
Qed.

Lemma follows_settimeout s t :
  follows (Connecting (Some s)) (settimeout s t)
    (fun _ q' => q' = Connecting (Some s))
    (fun _ q' => q' = Connecting (Some s)).
Proof.
  intros w r w' Hrun. exists [EvSetTimeout s t], (Connecting (Some s)).
  cbn. rewrite decide_True by done. revert Hrun. unfold settimeout.
  destruct (socks w !! s); by intros [= <- <-].
Qed.

Lemma follows_sock_connect s :
  follows (Connecting (Some s)) (sock_connect s host port)
    (fun _ q' => q' = Receiving s false)
    (fun _ q' => ∃ c, q' = Connecting c).
Proof.
  intros w r w' Hrun.
  assert ((r = Blocked ∧ w' = w)
          ∨ (∃ e w1, r = Raise e ∧ log w1 = log w
                     ∧ w' = emit (EvConnect s host port false) w1)
          ∨ (∃ w1, r = Ok tt ∧ log w1 = log w
                     ∧ w' = emit (EvConnect s host port true) w1))
    as [[-> ->]|[(e & w1 & -> & Hlog & ->)|(w1 & -> & Hlog & ->)]].
  { revert Hrun. unfold sock_connect.
    repeat (case_match; try done); intros [= <- <-];
      first [ by left
            | right; left; eexists _, _; by_emit
            | right; right; eexists _; by_emit ]. }
  - exists [], (Connecting (Some s)). rewrite app_nil_r. eauto.
  - exists [EvConnect s host port false], (Connecting None).
    cbn. rewrite decide_True, Hlog by done. eauto.
  - exists [EvConnect s host port true], (Receiving s false).
    cbn. rewrite decide_True, Hlog by done. eauto.
Qed.

(** A read that returns or raises has been logged; one that blocks
    has not. *)
Lemma follows_sock_recv s read bufsize :
  follows (Receiving s read) (sock_recv s bufsize)
    (fun _ q' => q' = Receiving s true)
    (fun o q' => match o with
                 | Some _ => q' = Receiving s true
                 | None => ∃ read', q' = Receiving s read'
                 end).
Proof.
  intros w r w' Hrun.
  assert ((r = Blocked ∧ w' = w)
          ∨ (∃ e w1, r = Raise e ∧ log w1 = log w
                     ∧ w' = emit (EvRecv s bufsize None) w1)
          ∨ (∃ chunk w1, r = Ok chunk ∧ log w1 = log w
                     ∧ w' = emit (EvRecv s bufsize (Some chunk)) w1))
    as [[-> ->]|[(e & w1 & -> & Hlog & ->)|(chunk & w1 & -> & Hlog & ->)]].
  { revert Hrun. unfold sock_recv.
    repeat (case_match; try done); intros [= <- <-];
      first [ by left
            | right; left; eexists _, _; by_emit
            | right; right; eexists _, _; by_emit ]. }
  - exists [], (Receiving s read). rewrite app_nil_r. eauto.
  - exists [EvRecv s bufsize None], (Receiving s true).
    destruct read; cbn; rewrite decide_True, Hlog by done; eauto.
  - exists [EvRecv s bufsize (Some chunk)], (Receiving s true).
    destruct read; cbn; rewrite decide_True, Hlog by done; eauto.
Qed.

Lemma follows_sock_close s E :
  follows (Receiving s true) (sock_close s) (fun _ q' => q' = Connecting None) E.
Proof.
  intros w r w' Hrun. exists [EvClose s], (Connecting None).
  cbn. rewrite decide_True by done. revert Hrun. unfold sock_close.
  destruct (socks w !! s); by intros [= <- <-].
Qed.

Lemma follows_decode q raw :
  follows q (decode raw) (fun _ q' => q' = q) (fun _ q' => q' = q).
Proof.
  unfold decode. destruct (Utf8.decode raw);
    [by apply follows_ret|by apply follows_raise].
Qed.

(** *** The three loops *)

Lemma follows_listen_body s read :
  follows (Receiving s read) (listen_for_messages_body s)
    (fun _ q' => q' = Receiving s true)
    (fun _ q' => ∃ read', q' = Receiving s read').
Proof.
  unfold listen_for_messages_body.
  eapply follows_try_except
    with (E' := fun (o : option exn) q' =>
                  match o with
                  | Some _ => q' = Receiving s true
                  | None => ∃ read', q' = Receiving s read'
                  end).
  - eapply follows_bind; [apply follows_sock_recv|].
    intros raw q' ->.
    eapply follows_bind_weak;
      [apply follows_decode|by intros [e|] q' ->; eauto|].
    intros data q' ->.
    destruct data as [|c data];
      (eapply follows_bind; [apply follows_print|]);
      intros _ q' ->; by apply follows_ret.
  - intros e msg q' _ ->.
    eapply follows_bind; [apply follows_print|].
    intros _ q' ->. by apply follows_ret.
  - intros e q' _ ->. eauto.
  - done.
Qed.

Lemma follows_listen fuel s read :
  follows (Receiving s read) (listen_for_messages fuel s)
    (fun _ q' => q' = Receiving s true)
    (fun _ q' => ∃ read', q' = Receiving s read').
Proof.
  apply follows_while_true
    with (I := fun q => ∃ read', q = Receiving s read'); [| |by eauto].
  - intros q [read' ->].
    eapply follows_weaken; [apply follows_listen_body|..]; cbn; [|done].
    intros [[]|] q' ->; eauto.
  - done.
Qed.

Lemma released_in_cases (ss : list socket) (prev : option nat) (s : nat) :
  released_in ss prev s = []
  ∨ ∃ old, released_in ss prev s = [EvFinalize old].
Proof. unfold released_in. repeat case_match; eauto. Qed.

Lemma run_attempt_start c (ss : list socket) (prev : option nat) (s : nat) :
  run (Connecting c)
    ([attempting host port; EvSocket s] ++ released_in ss prev s
     ++ [EvSetTimeout s 5.0%Q])
  = Some (Connecting (Some s)).
Proof.
  destruct (released_in_cases ss prev s) as [->|[old ->]], c; cbn;
    by rewrite decide_True.
Qed.

(** The loop of the Connector, whatever [sock] is bound to. *)
Lemma follows_connect_loop fuel :
  ∀ prev w r f c,
    while_true fuel (connect_to_server_body host port) (prev, w) = (r, f) →
    ∃ evs q', log (snd f) = log w ++ evs
              ∧ run (Connecting c) evs = Some q'
              ∧ match r with
                | Ok s => q' = Receiving s false
                | _ => ∃ c', q' = Connecting c'
                end.
Proof.
  induction fuel as [|fuel IH]; intros prev w r f c.
  { intros [= <- <-]. exists [], (Connecting c). rewrite app_nil_r. eauto. }
  rewrite while_true_S, connect_body_eq. cbn zeta.
  set (s := length (socks w)).
  set (pre := [attempting host port; EvSocket s]
              ++ released_in (socks w ++ [mkSocket None Unconnected []]) prev s
              ++ [EvSetTimeout s 5.0%Q]).
  replace (log w ++ [attempting host port; EvSocket s]
           ++ released_in (socks w ++ [mkSocket None Unconnected []]) prev s
           ++ [EvSetTimeout s 5.0%Q]) with (log w ++ pre) by done.
  assert (run (Connecting c) pre = Some (Connecting (Some s))) as Hpre
    by apply run_attempt_start.
  clearbody pre s.
  destruct (sock_connect _ _ _ _) as [rc w2] eqn:Hconn.
  destruct (follows_sock_connect s _ _ _ Hconn)
    as (evs0 & q0 & Hlog0 & Hq0 & Hr0).
  cbn [log] in Hlog0.
  assert (run (Connecting c) (pre ++ evs0) = Some q0) as Hq1.
  { by rewrite run_app, Hpre. }
  assert (∃ c', match rc with Ok _ => True | _ => q0 = Connecting c' end)
    as [c0 Hc0].
  { destruct rc; [by exists None|by destruct Hr0 as [c' ->]; exists c'..]. }
  destruct rc as [u|e| |]; try subst q0.
  - intros [= <- <-].
    exists ((pre ++ evs0) ++ [EvPrint (lit "Connected to the server.")]).
    exists (Receiving s false). cbn [snd log emit].
    rewrite Hlog0, run_app, Hq1. split; [by rewrite <- !app_assoc|done].
  - destruct (socket_error e) as [msg|].
    + intros Hrun.
      destruct (IH _ _ _ _ c0 Hrun) as (evs & q' & Hlog & Hq & Hr).
      cbn [log emit] in Hlog.
      exists ((pre ++ evs0)
              ++ [EvPrint (lit "Connection failed: " ++ msg
                           ++ lit ". Retrying in 5 seconds...");
                  EvSleep 5%Q] ++ evs), q'.
      rewrite Hlog, Hlog0, run_app, Hq1.
      split; [by rewrite <- !app_assoc|]. split; [|done].
      by destruct c0.
    + intros [= <- <-]. exists (pre ++ evs0), (Connecting c0).
      cbn [snd]. rewrite Hlog0, <- app_assoc. eauto.
  - intros [= <- <-]. exists (pre ++ evs0), (Connecting c0).
    cbn [snd]. rewrite Hlog0, <- app_assoc. eauto.
  - intros [= <- <-]. exists (pre ++ evs0), (Connecting c0).
    cbn [snd]. rewrite Hlog0, <- app_assoc. eauto.
Qed.

Lemma follows_connect fuel c :
  follows (Connecting c) (connect_to_server host port fuel)
    (fun s q' => q' = Receiving s false)
    (fun _ q' => ∃ c', q' = Connecting c').
Proof.
  intros w r w'. unfold connect_to_server, call.
  destruct (while_true fuel _ _) as [r0 f] eqn:Hloop. intros [= <- <-].
  apply (follows_connect_loop _ _ _ _ _ c Hloop).
Qed.

Lemma follows_main_body fuel c :
  follows (Connecting c) (main_body host port fuel)
    (fun _ q' => q' = Connecting None) (fun _ _ => True).
Proof.
  unfold main_body.
  eapply follows_bind_weak; [apply follows_connect|done|].
  intros s q' ->.
  eapply follows_bind_weak; [apply follows_listen|done|].
  intros _ q' ->.
  eapply follows_bind; [apply follows_sock_close|].
  intros _ q' ->.
  eapply follows_bind; [apply follows_print|].
  intros _ q' ->. by apply follows_ret.
Qed.

Lemma follows_main fuel c :
  follows (Connecting c) (main host port fuel)
    (fun _ _ => False) (fun _ _ => True).
Proof.
  apply follows_while_true
    with (I := fun q => ∃ c', q = Connecting c'); [| |by eauto].
  - intros q [c' ->].
    eapply follows_weaken; [apply follows_main_body|..]; cbn; [|done].
    intros [[]|] q' ->; eauto.
  - done.
Qed.

(** *** What an accepted log looks like *)

Lemma run_lookup q evs q' i e :
  run q evs = Some q' → evs !! i = Some e →
  ∃ q1 q2, run q (take i evs) = Some q1 ∧ step q1 e = Some q2
           ∧ run q2 (drop (S i) evs) = Some q'.
Proof.
  intros Hrun Hi. rewrite <- (take_drop_middle evs i e Hi), run_app in Hrun.
  destruct (run q (take i evs)) as [q1|]; [|done]. cbn in Hrun.
  destruct (step q1 e) as [q2|] eqn:Hstep; [|done]. by exists q1, q2.
Qed.

Lemma run_no_send q evs q' :
  run q evs = Some q' → Forall (fun e => is_send e = false) evs.
Proof.
  revert q. induction evs as [|e evs IH]; intros q Hrun; [done|].
  cbn in Hrun. destruct (step q e) as [q1|] eqn:Hstep; [|done].
  constructor; [|by eauto].
  by destruct q as [[|]|? []], e.
Qed.

Lemma run_connect_target q evs q' s h p ok :
  run q evs = Some q' → EvConnect s h p ok ∈ evs → h = host ∧ p = port.
Proof.
  intros Hrun [i Hi]%list_elem_of_lookup.
  destruct (run_lookup _ _ _ _ _ Hrun Hi) as (q1 & q2 & _ & Hstep & _).
  destruct q1 as [[c|]|c []]; cbn in Hstep; try done.
  case_decide as Heq; [by destruct Heq as (_ & ? & ?)|done].
Qed.

(** While receiving on [s], the log ends with the successful connect
    of [s] and then nothing but the Receiver's reads and lines. *)
Lemma run_receiving c evs s read :
  run (Connecting c) evs = Some (Receiving s read) →
  ∃ pre mid, evs = pre ++ EvConnect s host port true :: mid
             ∧ forallb (receiver_event s) mid = true
             ∧ existsb is_recv mid = read.
Proof.
  revert s read. induction evs as [|e evs IH] using rev_ind;
    intros s read Hrun; [done|].
  rewrite run_app in Hrun.
  destruct (run (Connecting c) evs) as [q1|] eqn:Hq1; [|done].
  cbn in Hrun. destruct (step q1 e) as [q2|] eqn:Hstep; [|done].
  simplify_eq.
  destruct q1 as [[c1|]|s1 read1].
  - destruct e; cbn in Hstep; try done; try (by case_decide).
    case_decide as Heq; [|done]. destruct Heq as (-> & -> & ->).
    destruct ok; simplify_eq. by exists evs, [].
  - by destruct e.
  - destruct (IH s1 read1 eq_refl) as (pre & mid & -> & Hmid & Hread).
    assert (s = s1 ∧ receiver_event s1 e = true
            ∧ read = read1 || is_recv e) as (-> & He & ->).
    { destruct read1, e; cbn in Hstep; try done;
        try case_decide; simplify_eq; cbn;
        by rewrite ?bool_decide_eq_true_2. }
    exists pre, (mid ++ [e]).
    rewrite forallb_app, existsb_app, Hmid, Hread, <- app_assoc. cbn.
    by rewrite He, !orb_false_r.
Qed.

(** A close comes after the successful connect of the same socket and
    at least one read, with only the Receiver in between. *)
Lemma run_close c evs q' i s :
  run (Connecting c) evs = Some q' → evs !! i = Some (EvClose s) →
  ∃ pre mid, take i evs = pre ++ EvConnect s host port true :: mid
             ∧ forallb (receiver_event s) mid = true
             ∧ existsb is_recv mid = true.
Proof.
  intros Hrun Hi.
  destruct (run_lookup _ _ _ _ _ Hrun Hi) as (q1 & q2 & Hq1 & Hstep & _).
  destruct q1 as [[c1|]|s1 []]; cbn in Hstep; try done.
  case_decide; simplify_eq. by eapply run_receiving.
Qed.

(** From the receive phase the connecting phase is reached only
    through the close of the open socket. *)
Lemma run_leaves_receiving s read evs c :
  run (Receiving s read) evs = Some (Connecting c) →
  ∃ i, evs !! i = Some (EvClose s).
Proof.
  revert read. induction evs as [|e evs IH]; intros read Hrun; [done|].
  cbn [Protocol.run] in Hrun.
  destruct (step (Receiving s read) e) as [q1|] eqn:Hstep; [|done].
  assert (e = EvClose s ∨ ∃ read1, q1 = Receiving s read1)
    as [->|[read1 ->]].
  { destruct read, e; cbn in Hstep; try done;
      try case_decide; simplify_eq; eauto. }
  - by exists 0%nat.
  - destruct (IH read1 Hrun) as [i Hi]. by exists (S i).
Qed.

(** Between the successful connect of a socket and the creation of
    the next one, the first is closed. *)
Lemma run_close_before_next c evs q' j k s h p s' :
  run (Connecting c) evs = Some q' →
  evs !! j = Some (EvConnect s h p true) →
  evs !! k = Some (EvSocket s') →
  (j < k)%nat →
  ∃ i, (j < i < k)%nat ∧ evs !! i = Some (EvClose s).
Proof.
  intros Hrun Hj Hk Hjk.
  destruct (run_lookup _ _ _ _ _ Hrun Hk) as (q1 & q2 & Hq1 & Hstep & _).
  assert (∃ c1, q1 = Connecting c1) as [c1 ->].
  { destruct q1 as [c1|? []]; [by eauto|done..]. }
  assert (take k evs !! j = Some (EvConnect s h p true)) as Hj'.
  { by rewrite lookup_take_lt. }
  destruct (run_lookup _ _ _ _ _ Hq1 Hj') as (q3 & q4 & _ & Hstep' & Hrest).
  assert (q4 = Receiving s false) as ->.
  { destruct q3 as [[c3|]|? []]; cbn in Hstep'; try done.
    case_decide as Heq; by simplify_eq. }
  destruct (run_leaves_receiving _ _ _ _ Hrest) as [i Hi].
  rewrite lookup_drop in Hi.
  apply lookup_take_Some in Hi as [Hi Hlt].
  exists (S j + i)%nat. split; [lia|done].
Qed.

End Order.

(** The Session Loop keeps to the order of sessions. *)
Lemma main_in_order host port fuel w r w' :
  main host port fuel w = (r, w') → in_order host port (log w) (log w').
Proof.
  intros Hrun.
  destruct (follows_main host port fuel None w r w' Hrun)
    as (evs & q' & Hlog & Hq & _).
  by exists evs, q'.
Qed.

(** ** Counting what the Connector logs *)

Lemma count_app {A} (f : A → bool) (l1 l2 : list A) :
  count f (l1 ++ l2) = (count f l1 + count f l2)%nat.
Proof. unfold count. by rewrite List.filter_app, length_app. Qed.

Section Notices.

Variables (host : text) (port : Z).

Lemma attempting_not_failure : failure_notice (attempting host port) = false.
Proof.
  apply bool_decide_eq_false. intros [k Hk]. by vm_compute in Hk.
Qed.

Lemma failure_line_notice msg :
  failure_notice (EvPrint (lit "Connection failed: " ++ msg
                           ++ lit ". Retrying in 5 seconds...")) = true.
Proof. apply bool_decide_eq_true. by eexists. Qed.

Lemma count_failed_attempt prev s msg :
  count failure_notice (failed_attempt_after host port prev s msg) = 1%nat
  ∧ List.filter is_sleep (failed_attempt_after host port prev s msg)
    = [EvSleep 5%Q]
  ∧ count is_close (failed_attempt_after host port prev s msg) = 0%nat.
Proof.
  unfold count, failed_attempt_after, attempt_start.
  destruct prev; cbn [released app List.filter];
    rewrite attempting_not_failure, failure_line_notice; done.
Qed.

Lemma count_successful_attempt prev s :
  count failure_notice (successful_attempt_after host port prev s) = 0%nat
  ∧ List.filter is_sleep (successful_attempt_after host port prev s) = []
  ∧ count is_close (successful_attempt_after host port prev s) = 0%nat.
Proof.
  unfold count, successful_attempt_after, attempt_start.
  destruct prev; cbn [released app List.filter];
    rewrite attempting_not_failure; done.
Qed.

Lemma count_failed_attempts_after prev s msgs :
  count failure_notice (failed_attempts_after host port prev s msgs)
  = length msgs
  ∧ List.filter is_sleep (failed_attempts_after host port prev s msgs)
    = replicate (length msgs) (EvSleep 5%Q)
  ∧ count is_close (failed_attempts_after host port prev s msgs) = 0%nat.
Proof.
  revert prev s. induction msgs as [|msg msgs IH]; intros prev s; [done|].
  cbn [failed_attempts_after length replicate].
  destruct (IH (Some s) (S s)) as (IH1 & IH2 & IH3).
  destruct (count_failed_attempt prev s msg) as (H1 & H2 & H3).
  rewrite !count_app, List.filter_app, IH1, IH2, IH3, H1, H2, H3. done.
Qed.

Lemma count_failed_attempts s msgs :
  count failure_notice (failed_attempts host port s msgs) = length msgs
  ∧ List.filter is_sleep (failed_attempts host port s msgs)
    = replicate (length msgs) (EvSleep 5%Q)
  ∧ count is_close (failed_attempts host port s msgs) = 0%nat.
Proof. apply count_failed_attempts_after. Qed.

End Notices.

(** ** The Connector *)

(** Failed attempts, then an attempt accepted in time. *)
Lemma connect_retries_succeeds (host : text) (port : Z)
    (fails : list connect_reply) (msgs : list text) (d : Q)
    (stream : list recv_reply) (rest : list connect_reply) (ss : list socket)
    (g : list event) (fuel : nat) :
  valid_port port = true →
  Forall2 (fun r msg => reply_error r = Some msg) fails msgs →
  Qle_bool 5.0 d = false →
  connect_to_server host port (length fails + S fuel)
    (mkWorld ss (fails ++ Accepted d stream :: rest) g)
  = (Ok (length ss + length fails)%nat,
     mkWorld
       (ss ++ replicate (length fails) fresh_socket
           ++ [mkSocket (Some 5.0%Q) Connected stream])
       rest
       (g ++ failed_attempts host port (length ss) msgs
          ++ successful_attempt_after host port
               (bound_after None (length ss) (length fails))
               (length ss + length fails))).
Proof.
  intros Hport Hfails Hd. unfold connect_to_server, call.
  rewrite (connect_retries host port Hport fails msgs Hfails) by done.
  rewrite while_true_S.
  rewrite (connect_body_succeeds host port Hport _ _ d stream rest);
    [|by apply unclosed_bound_after|done..].
  cbn [snd socks net log]. unfold failed_attempts.
  by rewrite length_app, length_replicate, <- !app_assoc.
Qed.

(** C1.  The Connector never fails outward, for an address [connect]
    takes: a port in 0..65535 and a host that is ASCII and holds no
    null character.  When the network fails the first attempts with a
    [socket.error] each (messages [msgs]) and accepts the next one in
    time, [connect_to_server] returns the socket of that attempt,
    connected and open; its log is one failed attempt per failure, each
    ending in a sleep of 5, then the successful attempt (in every
    attempt but the first of the call, once the new socket is made the
    runtime finalises the socket of the attempt before); so there are
    as many failure notices, and as many sleeps of 5, as failed
    attempts.  And whatever the network does, [connect_to_server]
    raises nothing: it returns a socket or is still retrying when the
    fuel runs out. *)
Theorem connector_retries_until_success
    (host : text) (port : Z) (fails : list connect_reply) (msgs : list text)
    (d : Q) (stream : list recv_reply) (rest : list connect_reply)
    (ss : list socket) (g : list event) (fuel : nat) :
  valid_port port = true →
  ascii_host host = true →
  mapM reply_error fails = Some msgs →
  Qle_bool 5.0 d = false →
  let s := (length ss + length fails)%nat in
  let evs := failed_attempts host port (length ss) msgs
             ++ successful_attempt_after host port
                  (bound_after None (length ss) (length fails)) s in
  let w' := mkWorld
              (ss ++ replicate (length fails) (mkSocket (Some 5.0%Q) Unconnected [])
                  ++ [mkSocket (Some 5.0%Q) Connected stream])
              rest (g ++ evs) in
  connect_to_server host port (length fails + S fuel)
    (mkWorld ss (fails ++ Accepted d stream :: rest) g) = (Ok s, w')
  ∧ socks w' !! s = Some (mkSocket (Some 5.0%Q) Connected stream)
  ∧ count failure_notice evs = length fails
  ∧ List.filter is_sleep evs = replicate (length fails) (EvSleep 5%Q)
  ∧ ∀ fuel0 w0, ∃ w1,
      connect_to_server host port fuel0 w0 = (OutOfFuel, w1)
      ∨ ∃ s0, connect_to_server host port fuel0 w0 = (Ok s0, w1).
Proof.
  intros Hport Hhost Hfails%mapM_Some Hd s evs w'.
  pose proof (Forall2_length _ _ _ Hfails) as Hlen.
  split_and!.
  - by apply connect_retries_succeeds.
  - subst w' s. cbn [socks]. rewrite app_assoc.
    apply list_lookup_middle. by rewrite length_app, length_replicate.
  - subst evs. rewrite count_app.
    destruct (count_failed_attempts host port (length ss) msgs) as (-> & _ & _).
    destruct (count_successful_attempt host port
                (bound_after None (length ss) (length fails)) s)
      as (-> & _ & _).
    lia.
  - subst evs. rewrite List.filter_app.
    destruct (count_failed_attempts host port (length ss) msgs) as (_ & -> & _).
    destruct (count_successful_attempt host port
                (bound_after None (length ss) (length fails)) s)
      as (_ & -> & _).
    by rewrite app_nil_r, Hlen.
  - intros fuel0 w0. by apply connect_never_raises.
Qed.

(** Scenario 1 of the specification: two refused attempts, then
    success; and, the host being [localhost], a network that never
    answers. *)
Lemma connector_retries_until_success_witness :
  connect_to_server localhost 8080 3
    (mkWorld [] [refused; refused; Accepted 0 []] [])
  = (Ok 2%nat,
     mkWorld [fresh_socket; fresh_socket; mkSocket (Some 5.0%Q) Connected []] []
       (failed_attempts localhost 8080 0 [refused_msg; refused_msg]
        ++ successful_attempt_after localhost 8080 (Some 1%nat) 2))
  ∧ ∃ w1,
      connect_to_server localhost 8080 2 (mkWorld [] [] []) = (OutOfFuel, w1)
      ∨ ∃ s0, connect_to_server localhost 8080 2 (mkWorld [] [] []) = (Ok s0, w1).
Proof.
  exact (conj
           (proj1 (connector_retries_until_success localhost 8080
                     [refused; refused] [refused_msg; refused_msg]
                     0 [] [] [] [] 0 eq_refl eq_refl eq_refl eq_refl))
           (proj2 (proj2 (proj2 (proj2
              (connector_retries_until_success localhost 8080
                 [refused; refused] [refused_msg; refused_msg]
                 0 [] [] [] [] 0 eq_refl eq_refl eq_refl eq_refl))))
              2%nat (mkWorld [] [] []))).
Defined.

(** ** Stripping *)

Section Strip.

Import Str.

Lemma lstrip_prefix s :
  ∃ l, s = l ++ lstrip s ∧ forallb isspace l = true.
Proof.
  induction s as [|c s (l & Hs & Hl)]; [by exists []|]. cbn [lstrip].
  destruct (isspace c) eqn:Hc; [|by exists []].
  exists (c :: l). cbn. by rewrite Hc, Hl, <- Hs.
Qed.

Lemma lstrip_head s c t : lstrip s = c :: t → isspace c = false.
Proof.
  induction s as [|c0 s IH]; [done|]. cbn [lstrip].
  destruct (isspace c0) eqn:Hc; [done|]. by intros [= <- _].
Qed.

Lemma lstrip_middle a c b :
  isspace c = false → lstrip (a ++ c :: b) = lstrip a ++ c :: b.
Proof.
  intros Hc. induction a as [|c0 a IH]; cbn [lstrip app]; [by rewrite Hc|].
  by destruct (isspace c0).
Qed.

Lemma rstrip_cons c t : isspace c = false → rstrip (c :: t) = c :: rstrip t.
Proof.
  intros Hc. unfold rstrip. cbn [rev].
  rewrite (lstrip_middle _ c []), rev_app_distr by done. done.
Qed.

Lemma rstrip_suffix s :
  ∃ r, s = rstrip s ++ r ∧ forallb isspace r = true.
Proof.
  destruct (lstrip_prefix (rev s)) as (l & Hs & Hl). exists (rev l). split.
  - unfold rstrip. by rewrite <- rev_app_distr, <- Hs, rev_involutive.
  - rewrite forallb_forall in *. intros c Hc. apply Hl. by apply in_rev.
Qed.

Lemma rstrip_last s c : last (rstrip s) = Some c → isspace c = false.
Proof.
  unfold rstrip. destruct (lstrip (rev s)) as [|c0 t] eqn:Hl; [done|].
  cbn [rev]. rewrite last_snoc. intros [= <-]. by eapply lstrip_head.
Qed.

(** [strip] removes a run of whitespace from each end and leaves
    text that neither begins nor ends with whitespace. *)
Lemma strip_spec s :
  ∃ l r, s = l ++ strip s ++ r
         ∧ forallb isspace l = true ∧ forallb isspace r = true
         ∧ (∀ c, head (strip s) = Some c → isspace c = false)
         ∧ (∀ c, last (strip s) = Some c → isspace c = false).
Proof.
  unfold strip.
  destruct (lstrip_prefix s) as (l & Hs & Hl).
  destruct (rstrip_suffix (lstrip s)) as (r & Hr & Hrs).
  exists l, r. split_and!; [by rewrite <- Hr|done..| |apply rstrip_last].
  intros c. destruct (lstrip s) as [|c0 t] eqn:Hls; [done|].
  rewrite rstrip_cons by by eapply lstrip_head.
  intros [= <-]. by eapply lstrip_head.
Qed.

(** Text of whitespace only strips to nothing. *)
Lemma strip_whitespace s : forallb isspace s = true → strip s = [].
Proof.
  intros Hs. unfold strip.
  assert (lstrip s = []) as ->; [|done].
  induction s as [|c s IH]; [done|]. cbn in *.
  apply andb_true_iff in Hs as [-> Hs]. by apply IH.
Qed.

End Strip.

(** ** The Receiver *)

(** C3.  Whatever the state of the socket, when the read of a turn
    returns zero bytes the Receiver prints the clean-close line and
    returns; when the read raises (a read raises nothing but
    [socket.error]) it prints the error line with [str(e)] and returns.
    In both cases the final world is the world right after that one
    read plus the line: nothing is read again. *)
Theorem receiver_terminates (fuel s : nat) (w : world) (r : outcome bytes)
    (w1 : world) :
  sock_recv s 1024 w = (r, w1) →
  (r = Ok [] →
     listen_for_messages (S fuel) s w =
       (Ok tt, emit (EvPrint (lit "Server closed the connection.")) w1))
  ∧ (∀ e, r = Raise e →
       ∃ msg, e = OSError msg
              ∧ listen_for_messages (S fuel) s w =
                  (Ok tt, emit (EvPrint (lit "Connection error: " ++ msg)) w1)).
Proof.
  intros Hrecv. split.
  - intros ->. by rewrite listen_S, listen_body_eq, Hrecv.
  - intros e ->.
    destruct (sock_recv_raises _ _ _ _ _ Hrecv) as [msg ->]. exists msg.
    split; [done|]. by rewrite listen_S, listen_body_eq, Hrecv.
Qed.

(** The boundary case of the specification: a zero-length read right
    after connecting. *)
Lemma receiver_terminates_witness :
  listen_for_messages 1 0 (connected [Data 0 []]) =
    (Ok tt,
     mkWorld [mkSocket (Some 5.0%Q) Connected []] []
       [EvRecv 0 1024 (Some []);
        EvPrint (lit "Server closed the connection.")]).
Proof.
  exact (proj1 (receiver_terminates 0 0 (connected [Data 0 []]) (Ok [])
                  (mkWorld [mkSocket (Some 5.0%Q) Connected []] []
                           [EvRecv 0 1024 (Some [])]) eq_refl) eq_refl).
Defined.

(** ** A whole session *)

(** One turn of the Session Loop when the first attempt succeeds, the
    peer delivers the messages [goods], and the turn of the Receiver
    that comes next makes it return. *)
Lemma main_body_session (host : text) (port : Z) (ss : list socket)
    (rest : list connect_reply) (g : list event) (d : Q)
    (goods tail : list recv_reply) (traces : list (list event))
    (fuel : nat) (w2 : world) :
  valid_port port = true →
  Qle_bool 5.0 d = false →
  Forall2 (fun r evs => delivery (length ss) (Some 5.0%Q) r = Some evs)
          goods traces →
  listen_for_messages_body (length ss)
    (mkWorld (ss ++ [mkSocket (Some 5.0%Q) Connected tail]) rest
       (g ++ successful_attempt host port (length ss) ++ concat traces))
    = (Ok (Some tt), w2) →
  main_body host port (length goods + S fuel)
    (mkWorld ss (Accepted d (goods ++ tail) :: rest) g)
  = (Ok None,
     emit (EvPrint (lit "Connection lost. Reconnecting..."))
       (snd (sock_close (length ss) w2))).
Proof.
  intros Hport Hd Hgoods Hlast. rewrite main_body_eq.
  replace (connect_to_server host port (length goods + S fuel))
    with (connect_to_server host port (S (length goods + fuel)))
    by (f_equal; lia).
  rewrite (connect_first_succeeds host port Hport _ _ d (goods ++ tail) rest)
    by done.
  cbn [socks net log].
  rewrite (listen_delivers (length ss) (Some 5.0%Q) rest goods traces Hgoods
             (S fuel) _ _ tail) by apply lookup_snoc_last.
  rewrite insert_snoc_last, <- app_assoc, listen_S, Hlast. done.
Qed.

Lemma sock_close_last (ss : list socket) (sk : socket)
    (n : list connect_reply) (g : list event) :
  sock_close (length ss) (mkWorld (ss ++ [sk]) n g) =
    (Ok tt,
     mkWorld (ss ++ [mkSocket (timeout sk) Closed (inbox sk)]) n
             (g ++ [EvClose (length ss)])).
Proof.
  unfold sock_close. cbn. rewrite lookup_snoc_last.
  unfold emit, set_socket. cbn. by rewrite insert_snoc_last.
Qed.

(** ** Messages *)

Example leading_blank_is_stripped :
  listen_for_messages_body 0 (connected [Data 0 sp_hello_nl]) =
    (Ok None,
     mkWorld [mkSocket (Some 5.0%Q) Connected []] []
       [EvRecv 0 1024 (Some sp_hello_nl);
        EvPrint (lit "Received from server: hello")]).
Proof. reflexivity. Qed.

Example undecodable_chunk_escapes :
  listen_for_messages_body 0 (connected [Data 0 [xff]]) =
    (Raise (UnicodeDecodeError [xff]),
     mkWorld [mkSocket (Some 5.0%Q) Connected []] []
       [EvRecv 0 1024 (Some [xff])]).
Proof. reflexivity. Qed.

(** The display of a message is not the removal of trailing whitespace
    only: the chunk [" hello\n"] is shown as [hello], without its
    leading blank. *)
Lemma display_strips_leading_whitespace :
  ¬ (∀ (s : nat) (w : world) (chunk : bytes) (w1 : world),
       sock_recv s 1024 w = (Ok chunk, w1) → chunk ≠ [] →
       ∃ data, Utf8.decode chunk = Some data
               ∧ listen_for_messages_body s w =
                   (Ok None,
                    emit (EvPrint (lit "Received from server: "
                                   ++ strip_trailing data)) w1)).
Proof.
  intros H.
  destruct (H 0%nat (connected [Data 0 sp_hello_nl]) sp_hello_nl
              (mkWorld [mkSocket (Some 5.0%Q) Connected []] []
                       [EvRecv 0 1024 (Some sp_hello_nl)])
              eq_refl ltac:(done)) as (data & Hdata & Hbody).
  vm_compute in Hdata. injection Hdata as <-.
  vm_compute in Hbody. discriminate Hbody.
Qed.

(** C5, amended.  A chunk that is not empty and decodes as UTF-8 is
    shown as one message, [Received from server: ] followed by the text
    with the whitespace at both its ends removed, and the Receiver goes
    on.  When the server sends ["hello\n"] and closes, the turn of the
    Session Loop logs [Received from server: hello], the clean-close
    line, the close and the reconnect line. *)
Theorem receiver_displays_stripped :
  (∀ (s : nat) (w : world) (chunk : bytes) (data : text) (w1 : world),
     sock_recv s 1024 w = (Ok chunk, w1) → chunk ≠ [] →
     Utf8.decode chunk = Some data →
     listen_for_messages_body s w =
       (Ok None,
        emit (EvPrint (lit "Received from server: " ++ Str.strip data)) w1)
     ∧ ∃ l r, data = l ++ Str.strip data ++ r
              ∧ forallb Str.isspace l = true ∧ forallb Str.isspace r = true
              ∧ (∀ c, head (Str.strip data) = Some c → Str.isspace c = false)
              ∧ (∀ c, last (Str.strip data) = Some c → Str.isspace c = false))
  ∧ (∀ (host : text) (port : Z) (ss : list socket) (rest : list connect_reply)
       (g : list event) (d d1 d2 : Q) (fuel : nat),
       valid_port port = true →
       Qle_bool 5.0 d = false → Qle_bool 5.0 d1 = false →
       Qle_bool 5.0 d2 = false →
       let s := length ss in
       main_body host port (S (S fuel))
         (mkWorld ss (Accepted d [Data d1 hello_nl; Data d2 []] :: rest) g)
       = (Ok None,
          mkWorld (ss ++ [mkSocket (Some 5.0%Q) Closed []]) rest
            (g ++ successful_attempt host port s
               ++ [EvRecv s 1024 (Some hello_nl);
                   EvPrint (lit "Received from server: hello");
                   EvRecv s 1024 (Some []);
                   EvPrint (lit "Server closed the connection.");
                   EvClose s;
                   EvPrint (lit "Connection lost. Reconnecting...")]))).
Proof.
  split.
  - intros s w chunk data w1 Hrecv Hne Hdata. split; [|apply strip_spec].
    rewrite listen_body_eq, Hrecv, Hdata.
    destruct data as [|c data]; [|done]. by apply decode_nil in Hdata.
  - intros host port ss rest g d d1 d2 fuel Hport Hd Hd1 Hd2 s. subst s.
    pose proof (main_body_session host port ss rest g d
               [Data d1 hello_nl] [Data d2 []]
               [received (length ss) hello_nl (lit "hello" ++ [10%N])] fuel
               (mkWorld (ss ++ [mkSocket (Some 5.0%Q) Connected []]) rest
                  ((g ++ successful_attempt host port (length ss)
                      ++ received (length ss) hello_nl (lit "hello" ++ [10%N]))
                   ++ [EvRecv (length ss) 1024 (Some []);
                       EvPrint (lit "Server closed the connection.")]))
               Hport Hd) as Hsession.
    cbn [length Nat.add app concat] in Hsession. rewrite Hsession.
    + rewrite sock_close_last. unfold emit. cbn [snd socks net log timeout inbox].
      by rewrite <- !app_assoc.
    + repeat constructor. cbn. by rewrite Hd1.
    + rewrite listen_body_eq.
      rewrite (sock_recv_data _ _ _ (length ss) (Some 5.0%Q) _
                 (lookup_snoc_last _ _) 1024 d2 [] []) by done.
      rewrite insert_snoc_last. cbn. unfold emit. cbn.
      by rewrite <- !app_assoc.
Qed.

(** Scenario 2 of the specification. *)
Lemma receiver_displays_stripped_witness :
  main_body localhost 8080 2
    (mkWorld [] [Accepted 0 [Data 0 hello_nl; Data 0 []]] [])
  = (Ok None,
     mkWorld [mkSocket (Some 5.0%Q) Closed []] []
       (successful_attempt localhost 8080 0
        ++ [EvRecv 0 1024 (Some hello_nl);
            EvPrint (lit "Received from server: hello");
            EvRecv 0 1024 (Some []);
            EvPrint (lit "Server closed the connection.");
            EvClose 0;
            EvPrint (lit "Connection lost. Reconnecting...")])).
Proof.
  exact (proj2 receiver_displays_stripped localhost 8080 [] [] []
           0%Q 0%Q 0%Q 0%nat eq_refl eq_refl eq_refl eq_refl).
Defined.

(** A chunk that is not empty need not be printed: the chunk [0xff] is
    not UTF-8, and the turn of the Receiver that reads it prints
    nothing and does not go on to the next turn. *)
Lemma undecodable_chunk_is_not_printed :
  ¬ (∀ (s : nat) (w : world) (chunk : bytes) (w1 : world),
       sock_recv s 1024 w = (Ok chunk, w1) → chunk ≠ [] →
       ∃ line, listen_for_messages_body s w = (Ok None, emit (EvPrint line) w1)).
Proof.
  intros H.
  destruct (H 0%nat (connected [Data 0 [xff]]) [xff]
              (mkWorld [mkSocket (Some 5.0%Q) Connected []] []
                       [EvRecv 0 1024 (Some [xff])])
              eq_refl ltac:(done)) as (line & Hbody).
  vm_compute in Hbody. discriminate Hbody.
Qed.

(** C9, amended.  Of the chunks a read can return, the empty one alone
    is taken for a clean close.  A chunk that is not empty and decodes
    as UTF-8 is printed and the loop goes on with the next turn; when
    it is whitespace only, what is printed after the prefix is empty. *)
Theorem only_empty_read_is_clean_close (s : nat) (w : world) (chunk : bytes)
    (w1 : world) :
  sock_recv s 1024 w = (Ok chunk, w1) →
  (listen_for_messages_body s w =
     (Ok (Some tt), emit (EvPrint (lit "Server closed the connection.")) w1)
   ↔ chunk = [])
  ∧ (∀ data, chunk ≠ [] → Utf8.decode chunk = Some data →
       listen_for_messages_body s w =
         (Ok None,
          emit (EvPrint (lit "Received from server: " ++ Str.strip data)) w1)
       ∧ (∀ fuel, listen_for_messages (S fuel) s w =
                    listen_for_messages fuel s
                      (emit (EvPrint (lit "Received from server: "
                                      ++ Str.strip data)) w1))
       ∧ (forallb Str.isspace data = true →
            lit "Received from server: " ++ Str.strip data
            = lit "Received from server: ")).
Proof.
  intros Hrecv. rewrite listen_body_eq, Hrecv. split.
  - split.
    + destruct (Utf8.decode chunk) as [[|c data]|] eqn:Hdata; [|done..].
      intros _. by apply decode_nil.
    + by intros ->.
  - intros data Hne Hdata. rewrite Hdata.
    destruct data as [|c data]; [by apply decode_nil in Hdata|].
    split_and!; [done| |].
    + intros fuel. by rewrite listen_S, listen_body_eq, Hrecv, Hdata.
    + intros Hspace. by rewrite strip_whitespace, app_nil_r.
Qed.

(** A chunk of two blanks and a newline. *)
Lemma only_empty_read_is_clean_close_witness :
  listen_for_messages_body 0 (connected [Data 0 [x20; x20; x0a]]) =
    (Ok None,
     mkWorld [mkSocket (Some 5.0%Q) Connected []] []
       [EvRecv 0 1024 (Some [x20; x20; x0a]);
        EvPrint (lit "Received from server: ")]).
Proof.
  exact (proj1 (proj2 (only_empty_read_is_clean_close 0
                         (connected [Data 0 [x20; x20; x0a]]) [x20; x20; x0a]
                         (mkWorld [mkSocket (Some 5.0%Q) Connected []] []
                                  [EvRecv 0 1024 (Some [x20; x20; x0a])])
                         eq_refl)
                  [32%N; 32%N; 10%N] ltac:(done) eq_refl)).
Defined.

(** ** Sockets over a run *)

Lemma sock_connect_ok (s : nat) (host : text) (port : Z) (w w' : world)
    (u : unit) :
  sock_connect s host port w = (Ok u, w') →
  ∃ sk stream,
    socks w !! s = Some sk
    ∧ socks w' = <[s := mkSocket (timeout sk) Connected stream]> (socks w).
Proof.
  unfold sock_connect. repeat (case_match; try done).
  intros [= <- <-]. by eexists _, _.
Qed.

(** A read leaves the timeout and the status of its socket alone, and
    the number of sockets. *)
Lemma sock_recv_socket (s bufsize : nat) (w w' : world) (r : outcome bytes)
    (sk : socket) :
  sock_recv s bufsize w = (r, w') → socks w !! s = Some sk →
  ∃ box, socks w' !! s = Some (mkSocket (timeout sk) (status sk) box).
Proof.
  intros Hrecv Hs. destruct sk as [t st box].
  revert Hrecv. unfold sock_recv. rewrite Hs. cbn.
  pose proof (lookup_lt_Some _ _ _ Hs) as Hlt.
  destruct st, box as [|[d payload|d msg] box], t as [t|]; cbn;
    repeat (case_match; try done); intros [= <- <-]; cbn;
    rewrite ?list_lookup_insert_eq by done; eauto.
Qed.

Lemma listen_socket (fuel s : nat) (w w' : world) (r : outcome unit)
    (sk : socket) :
  listen_for_messages fuel s w = (r, w') → socks w !! s = Some sk →
  ∃ box, socks w' !! s = Some (mkSocket (timeout sk) (status sk) box).
Proof.
  revert w sk. induction fuel as [|fuel IH]; intros w sk.
  - intros [= <- <-] Hs. destruct sk; eauto.
  - rewrite listen_S, listen_body_eq. intros Hrun Hs.
    destruct (sock_recv s 1024 w) as [rr w1] eqn:Hrecv.
    destruct (sock_recv_socket _ _ _ _ _ _ Hrecv Hs) as [box Hbox].
    destruct rr as [raw|e| |]; simplify_eq; eauto.
    + destruct (Utf8.decode raw) as [[|c data]|]; simplify_eq; eauto.
      apply (IH _ _ Hrun Hbox).
    + destruct (socket_error e); simplify_eq; eauto.
Qed.

Lemma sock_connect_log (s : nat) (host : text) (port : Z) (w w' : world)
    (r : outcome unit) :
  sock_connect s host port w = (r, w') →
  ∃ evs, log w' = log w ++ evs ∧ forallb connector_event evs = true.
Proof.
  unfold sock_connect.
  repeat (case_match; try done); intros [= <- <-]; cbn;
    first [ by eexists [_] | exists []; by rewrite app_nil_r ].
Qed.

Section Sockets.

Variables (host : text) (port : Z).

Abbreviation turn := (connect_to_server_body host port).

Lemma connect_loop_socket (fuel : nat) :
  ∀ prev w s f,
    while_true fuel turn (prev, w) = (Ok s, f) →
    ∃ stream,
      socks (snd f) !! s = Some (mkSocket (Some 5.0%Q) Connected stream).
Proof.
  induction fuel as [|fuel IH]; intros prev w s f; [done|].
  rewrite while_true_S, connect_body_eq. cbn zeta.
  destruct (sock_connect _ _ _ _) as [[u|e| |] w2] eqn:Hconn; try done.
  - intros [= <- <-].
    destruct (sock_connect_ok _ _ _ _ _ _ Hconn) as (sk & stream & Hs & Hss).
    cbn in Hs, Hss. rewrite lookup_snoc_last in Hs. simplify_eq.
    exists stream. cbn. by rewrite Hss, insert_snoc_last, lookup_snoc_last.
  - destruct (socket_error e); [|done]. apply IH.
Qed.

(** The socket the Connector returns is connected and has the 5.0
    timeout set. *)
Lemma connect_socket (fuel : nat) (w w' : world) (s : nat) :
  connect_to_server host port fuel w = (Ok s, w') →
  ∃ stream, socks w' !! s = Some (mkSocket (Some 5.0%Q) Connected stream).
Proof.
  unfold connect_to_server, call.
  destruct (while_true fuel _ _) as [r f] eqn:Hloop. intros [= -> <-].
  by eapply connect_loop_socket.
Qed.

Lemma connect_loop_events (fuel : nat) :
  ∀ prev w r f,
    while_true fuel turn (prev, w) = (r, f) →
    ∃ evs, log (snd f) = log w ++ evs ∧ forallb connector_event evs = true.
Proof.
  induction fuel as [|fuel IH]; intros prev w r f.
  { intros [= <- <-]. exists []. by rewrite app_nil_r. }
  rewrite while_true_S, connect_body_eq. cbn zeta.
  set (pre := [attempting host port; EvSocket (length (socks w))]
              ++ released_in (socks w ++ [mkSocket None Unconnected []]) prev
                   (length (socks w))
              ++ [EvSetTimeout (length (socks w)) 5.0%Q]).
  assert (forallb connector_event pre = true) as Hpre.
  { subst pre. by destruct (released_in_cases
                              (socks w ++ [mkSocket None Unconnected []]) prev
                              (length (socks w))) as [->|[old ->]]. }
  clearbody pre.
  destruct (sock_connect _ _ _ _) as [rc w2] eqn:Hconn.
  destruct (sock_connect_log _ _ _ _ _ _ Hconn) as (evs0 & Hlog0 & Hevs0).
  cbn in Hlog0.
  destruct rc as [u|e| |].
  - intros [= <- <-].
    exists (pre ++ evs0 ++ [EvPrint (lit "Connected to the server.")]).
    cbn [snd log emit].
    rewrite Hlog0, !forallb_app, Hpre, Hevs0, <- !app_assoc. done.
  - destruct (socket_error e) as [msg|].
    + intros Hrun. destruct (IH _ _ _ _ Hrun) as (evs & Hlog & Hevs).
      cbn [log emit] in Hlog.
      exists (pre ++ evs0
              ++ [EvPrint (lit "Connection failed: " ++ msg
                           ++ lit ". Retrying in 5 seconds...");
                  EvSleep 5%Q] ++ evs).
      rewrite Hlog, Hlog0, !forallb_app, Hpre, Hevs0, Hevs, <- !app_assoc.
      done.
    + intros [= <- <-]. exists (pre ++ evs0). cbn [snd].
      by rewrite Hlog0, !forallb_app, Hpre, Hevs0, <- !app_assoc.
  - intros [= <- <-]. exists (pre ++ evs0). cbn [snd].
    by rewrite Hlog0, !forallb_app, Hpre, Hevs0, <- !app_assoc.
  - intros [= <- <-]. exists (pre ++ evs0). cbn [snd].
    by rewrite Hlog0, !forallb_app, Hpre, Hevs0, <- !app_assoc.
Qed.

(** While the Connector runs nothing is logged but its own effects and
    the finalising of sockets it has abandoned: no read, no close, no
    send. *)
Lemma connect_events (fuel : nat) (w w' : world) (r : outcome nat) :
  connect_to_server host port fuel w = (r, w') →
  ∃ evs, log w' = log w ++ evs ∧ forallb connector_event evs = true.
Proof.
  unfold connect_to_server, call.
  destruct (while_true fuel _ _) as [r0 f] eqn:Hloop. intros [= <- <-].
  by eapply connect_loop_events.
Qed.

End Sockets.

(** ** What the client never does *)

(** The log does record a send when one is made. *)
Example sock_send_is_logged :
  log (snd (sock_send 0 [x68; x69] (connected []))) = [EvSend 0 [x68; x69]].
Proof. reflexivity. Qed.

(** C7.  The client never sends: whatever the network does and however
    long the Session Loop runs, nothing it logs is a send. *)
Theorem client_never_sends (host : text) (port : Z) (fuel : nat) (w : world) :
  ∃ evs, log (snd (main host port fuel w)) = log w ++ evs
         ∧ Forall (fun e => is_send e = false) evs.
Proof.
  destruct (main host port fuel w) as [r w'] eqn:Hrun.
  destruct (main_in_order _ _ _ _ _ _ Hrun) as (evs & q & Hlog & Hq).
  exists evs. split; [done|]. by eapply run_no_send.
Qed.

(** ** The configuration *)

(** C6.  With [SERVER_HOST] and [SERVER_PORT] set neither in the
    environment nor in the [.env] file, the module-level values are
    ["localhost"] and [8080], whatever [int] does on strings.  The
    values computed when the module is loaded are the ones every
    connection attempt of the run uses. *)
Theorem default_configuration (int_of_str : text → exn + Z)
    (dotenv environ : gmap string text) :
  environ !! "SERVER_HOST" = None → dotenv !! "SERVER_HOST" = None →
  environ !! "SERVER_PORT" = None → dotenv !! "SERVER_PORT" = None →
  module_init int_of_str dotenv environ = inr (lit "localhost", 8080)
  ∧ (∀ fuel w, ∃ evs,
       log (snd (client_py int_of_str dotenv environ fuel w)) = log w ++ evs
       ∧ ∀ s h p ok, EvConnect s h p ok ∈ evs → h = lit "localhost" ∧ p = 8080)
  ∧ (∀ dotenv' environ' host port fuel w,
       module_init int_of_str dotenv' environ' = inr (host, port) →
       ∃ evs,
         log (snd (client_py int_of_str dotenv' environ' fuel w)) = log w ++ evs
         ∧ ∀ s h p ok, EvConnect s h p ok ∈ evs → h = host ∧ p = port).
Proof.
  intros Heh Hdh Hep Hdp.
  assert (module_init int_of_str dotenv environ = inr (lit "localhost", 8080))
    as Hinit.
  { unfold module_init, getenv, load_dotenv.
    rewrite !lookup_union, Heh, Hdh, Hep, Hdp. done. }
  assert (∀ dotenv' environ' host port fuel w,
            module_init int_of_str dotenv' environ' = inr (host, port) →
            ∃ evs,
              log (snd (client_py int_of_str dotenv' environ' fuel w))
              = log w ++ evs
              ∧ ∀ s h p ok, EvConnect s h p ok ∈ evs → h = host ∧ p = port)
    as Hfixed.
  { intros dotenv' environ' host port fuel w Hinit'.
    unfold client_py. rewrite Hinit'.
    destruct (main host port fuel w) as [r w'] eqn:Hrun.
    destruct (main_in_order _ _ _ _ _ _ Hrun) as (evs & q & Hlog & Hq).
    exists evs. split; [done|]. intros s h p ok. by eapply run_connect_target. }
  split_and!; [done| |done].
  intros fuel w. by apply Hfixed.
Qed.

(** Nothing set at all. *)
Lemma default_configuration_witness :
  module_init int_of_plain_decimal ∅ ∅ = inr (lit "localhost", 8080).
Proof.
  exact (proj1 (default_configuration int_of_plain_decimal ∅ ∅
                  eq_refl eq_refl eq_refl eq_refl)).
Defined.

(** ** An error that ends the process *)

(** The Receiver raises nothing but the decoding error. *)
Lemma listen_raises (fuel s : nat) (w w' : world) (e : exn) :
  listen_for_messages fuel s w = (Raise e, w') →
  ∃ raw, e = UnicodeDecodeError raw.
Proof.
  revert w. induction fuel as [|fuel IH]; intros w; [done|].
  rewrite listen_S, listen_body_eq.
  destruct (sock_recv s 1024 w) as [[raw|e0| |] w1] eqn:Hrecv; try done.
  - destruct (Utf8.decode raw) as [[|c data]|]; try done.
    + apply IH.
    + intros [= <- <-]. by exists raw.
  - destruct (sock_recv_raises _ _ _ _ _ Hrecv) as [msg ->]. done.
Qed.

(** Under a valid port and with a host that [connect] always takes,
    that error is the only one that ends [main]. *)
Lemma main_raises (host : text) (port : Z) (fuel : nat) (w w' : world)
    (e : exn) :
  valid_port port = true →
  ascii_host host = true →
  main host port fuel w = (Raise e, w') →
  ∃ raw, e = UnicodeDecodeError raw.
Proof.
  intros Hport Hhost. unfold main. generalize fuel at 2. intros F. revert w.
  induction fuel as [|fuel IH]; intros w; [done|].
  rewrite while_true_S, main_body_eq.
  destruct (connect_never_raises host port Hport F w Hhost)
    as [w1 [->|[s ->]]]; [done|].
  destruct (listen_for_messages F s w1) as [[u|e0| |] w2] eqn:Hlisten;
    try done.
  - apply IH.
  - intros [= <- <-]. by eapply listen_raises.
Qed.

(** C4 fails on the code.  The server accepts the connection and sends
    the single byte [0xff]: [decode] raises [UnicodeDecodeError], which
    is no [socket.error]; it leaves [listen_for_messages] and [main],
    whatever the fuel.  The socket is still connected, nothing is
    closed, no reconnect line is printed. *)
Theorem main_stops_on_undecodable_chunk (fuel : nat) :
  main localhost 8080 (S fuel) (mkWorld [] [Accepted 0 [Data 0 [xff]]] []) =
    (Raise (UnicodeDecodeError [xff]),
     mkWorld [mkSocket (Some 5.0%Q) Connected []] []
       (successful_attempt localhost 8080 0 ++ [EvRecv 0 1024 (Some [xff])])).
Proof.
  unfold main. rewrite while_true_S, main_body_eq.
  rewrite (connect_first_succeeds localhost 8080 eq_refl _ _ 0 [Data 0 [xff]] [])
    by done.
  cbn [socks net log length app].
  rewrite listen_S, listen_body_eq.
  by rewrite (sock_recv_data [mkSocket (Some 5.0%Q) Connected [Data 0 [xff]]]
                _ _ 0 (Some 5.0%Q) [Data 0 [xff]] eq_refl 1024 0 [xff] []).
Qed.

(** ** The order of the phases *)

(** Whenever the Receiver returns, the turn of the Session Loop closes
    the connection, prints the reconnect line and falls through. *)
Lemma main_body_closes (host : text) (port : Z) (fuel : nat) (w : world)
    (s : nat) (w1 : world) (u : unit) (w2 : world) :
  connect_to_server host port fuel w = (Ok s, w1) →
  listen_for_messages fuel s w1 = (Ok u, w2) →
  ∃ w3 box,
    main_body host port fuel w = (Ok None, w3)
    ∧ log w3 = log w2 ++ [EvClose s;
                          EvPrint (lit "Connection lost. Reconnecting...")]
    ∧ socks w2 !! s = Some (mkSocket (Some 5.0%Q) Connected box)
    ∧ socks w3 !! s = Some (mkSocket (Some 5.0%Q) Closed box).
Proof.
  intros Hconn Hlisten.
  destruct (connect_socket _ _ _ _ _ _ Hconn) as [stream Hs1].
  destruct (listen_socket _ _ _ _ _ _ Hlisten Hs1) as [box Hs2].
  cbn in Hs2. eexists _, box.
  rewrite main_body_eq, Hconn, Hlisten. split_and!; [done| |done|].
  - cbn. by rewrite sock_close_log, <- app_assoc.
  - cbn. by rewrite (sock_close_status _ _ _ Hs2).
Qed.

(** C2 fails on the code.  Not every exit from the receive phase closes
    the connection.  The server accepts the connection and sends the
    single byte [0xff]: the Receiver is left by [UnicodeDecodeError],
    which [except socket.error] does not catch, and the turn of the
    Session Loop ends with it, whatever the fuel: [sock.close()] is not
    reached.  The socket is still connected and the log has no close.
    When the same connection ends in an error of the transport instead,
    the Receiver returns and the turn does close the socket. *)
Theorem receive_phase_left_without_close (fuel : nat) :
  main_body localhost 8080 (S fuel)
    (mkWorld [] [Accepted 0 [Data 0 [xff]]] [])
  = (Raise (UnicodeDecodeError [xff]),
     mkWorld [mkSocket (Some 5.0%Q) Connected []] []
       (successful_attempt localhost 8080 0 ++ [EvRecv 0 1024 (Some [xff])]))
  ∧ existsb is_close
      (successful_attempt localhost 8080 0 ++ [EvRecv 0 1024 (Some [xff])])
    = false
  ∧ main_body localhost 8080 (S fuel)
      (mkWorld [] [Accepted 0 [Broken 0 reset_msg]] [])
    = (Ok None,
       mkWorld [mkSocket (Some 5.0%Q) Closed []] []
         (successful_attempt localhost 8080 0
          ++ [EvRecv 0 1024 None;
              EvPrint (lit "Connection error: " ++ reset_msg);
              EvClose 0;
              EvPrint (lit "Connection lost. Reconnecting...")])).
Proof.
  split_and!.
  - rewrite main_body_eq.
    rewrite (connect_first_succeeds localhost 8080 eq_refl _ _ 0
               [Data 0 [xff]] []) by done.
    cbn [socks net log length app].
    rewrite listen_S, listen_body_eq.
    by rewrite (sock_recv_data [mkSocket (Some 5.0%Q) Connected [Data 0 [xff]]]
                  _ _ 0 (Some 5.0%Q) [Data 0 [xff]] eq_refl 1024 0 [xff] []).
  - done.
  - rewrite main_body_eq.
    rewrite (connect_first_succeeds localhost 8080 eq_refl _ _ 0
               [Broken 0 reset_msg] []) by done.
    cbn [socks net log length app].
    rewrite listen_S, listen_body_eq.
    by rewrite (sock_recv_broken
                  [mkSocket (Some 5.0%Q) Connected [Broken 0 reset_msg]]
                  _ _ 0 (Some 5.0%Q) [Broken 0 reset_msg] eq_refl 1024 0
                  reset_msg []).
Qed.

(** ** The timeout during reads *)

(** C8.  The socket [connect_to_server] returns has the timeout 5.0
    set, and the Receiver leaves it set, whatever it reads.  On such a
    socket a read during which nothing arrives before 5 has passed
    raises [socket.timeout]: the Receiver prints the error line for it
    and returns, as for any other [socket.error].  In a whole turn of
    the Session Loop (the attempt succeeds, the messages [goods] are
    delivered, then the connection falls silent) the connection is
    then closed, the reconnect line is printed, and the loop goes on
    with its next turn. *)
Theorem idle_connection_is_torn_down (host : text) (port : Z) :
  (∀ fuel w s w1,
     connect_to_server host port fuel w = (Ok s, w1) →
     ∃ stream, socks w1 !! s = Some (mkSocket (Some 5.0%Q) Connected stream))
  ∧ (∀ fuel s w r w' sk,
       listen_for_messages fuel s w = (r, w') → socks w !! s = Some sk →
       ∃ box, socks w' !! s = Some (mkSocket (timeout sk) (status sk) box))
  ∧ (∀ fuel s ss n g box,
       ss !! s = Some (mkSocket (Some 5.0%Q) Connected box) →
       silent_for 5.0 box = true →
       listen_for_messages (S fuel) s (mkWorld ss n g) =
         (Ok tt,
          mkWorld (<[s := mkSocket (Some 5.0%Q) Connected (after_wait 5.0 box)]> ss)
            n (g ++ [EvRecv s 1024 None;
                     EvPrint (lit "Connection error: timed out")])))
  ∧ (∀ ss rest g d goods traces tail fuel k,
       valid_port port = true →
       Qle_bool 5.0 d = false →
       mapM (delivery (length ss) (Some 5.0%Q)) goods = Some traces →
       silent_for 5.0 tail = true →
       let s := length ss in
       let w := mkWorld ss (Accepted d (goods ++ tail) :: rest) g in
       let w' := mkWorld
                   (ss ++ [mkSocket (Some 5.0%Q) Closed (after_wait 5.0 tail)])
                   rest
                   (g ++ successful_attempt host port s ++ concat traces
                      ++ [EvRecv s 1024 None;
                          EvPrint (lit "Connection error: timed out");
                          EvClose s;
                          EvPrint (lit "Connection lost. Reconnecting...")]) in
       let turn := main_body host port (length goods + S fuel) in
       turn w = (Ok None, w')
       ∧ while_true (S k) turn w = while_true k turn w').
Proof.
  split_and!.
  - intros fuel w s w1. apply connect_socket.
  - intros fuel s w r w' sk. apply listen_socket.
  - intros fuel s ss n g box Hs Hsilent.
    rewrite listen_S, listen_body_eq.
    rewrite (sock_recv_timeout ss n g s (Some 5.0%Q) box Hs 1024 5.0%Q) by done.
    cbn. unfold emit. cbn. by rewrite <- app_assoc.
  - intros ss rest g d goods traces tail fuel k Hport Hd Hgoods%mapM_Some
      Hsilent s w w' turn.
    assert (turn w = (Ok None, w')) as Hturn.
    { subst turn w w' s.
      rewrite (main_body_session host port ss rest g d goods tail traces fuel
                 (mkWorld (ss ++ [mkSocket (Some 5.0%Q) Connected
                                    (after_wait 5.0 tail)]) rest
                    ((g ++ successful_attempt host port (length ss)
                        ++ concat traces)
                     ++ [EvRecv (length ss) 1024 None;
                         EvPrint (lit "Connection error: timed out")]))
                 Hport Hd Hgoods).
      - rewrite sock_close_last. unfold emit.
        cbn [snd socks net log timeout inbox]. by rewrite <- !app_assoc.
      - rewrite listen_body_eq.
        rewrite (sock_recv_timeout _ _ _ (length ss) (Some 5.0%Q) tail
                   (lookup_snoc_last _ _) 1024 5.0%Q) by done.
        rewrite insert_snoc_last. cbn. unfold emit. cbn.
        by rewrite <- !app_assoc. }
    split; [done|]. by rewrite while_true_S, Hturn.
Qed.

(** An accepted connection on which nothing ever arrives. *)
Lemma idle_connection_is_torn_down_witness :
  main_body localhost 8080 1 (mkWorld [] [Accepted 0 []] []) =
    (Ok None,
     mkWorld [mkSocket (Some 5.0%Q) Closed []] []
       (successful_attempt localhost 8080 0
        ++ [EvRecv 0 1024 None;
            EvPrint (lit "Connection error: timed out");
            EvClose 0;
            EvPrint (lit "Connection lost. Reconnecting...")])).
Proof.
  exact (proj1 (proj2 (proj2 (proj2 (idle_connection_is_torn_down localhost 8080)))
                  [] [] [] 0%Q [] [] [] 0%nat 0%nat
                  eq_refl eq_refl eq_refl eq_refl)).
Defined.

(** ** Sockets of failed attempts *)

Lemma created_failed_attempts_after (host : text) (port : Z)
    (prev : option nat) (s : nat) (msgs : list text) :
  created (failed_attempts_after host port prev s msgs) = seq s (length msgs).
Proof.
  revert prev s. induction msgs as [|msg msgs IH]; intros prev s; [done|].
  cbn [failed_attempts_after length seq]. unfold created in *.
  rewrite omap_app, IH. by destruct prev.
Qed.

Lemma created_failed_attempts (host : text) (port : Z) (s : nat)
    (msgs : list text) :
  created (failed_attempts host port s msgs) = seq s (length msgs).
Proof. apply created_failed_attempts_after. Qed.

Lemma closed_failed_attempts_after (host : text) (port : Z)
    (prev : option nat) (s : nat) (msgs : list text) :
  closed (failed_attempts_after host port prev s msgs) = [].
Proof.
  revert prev s. induction msgs as [|msg msgs IH]; intros prev s; [done|].
  cbn [failed_attempts_after]. unfold closed in *.
  rewrite omap_app, IH. by destruct prev.
Qed.

(** Each failed attempt but the last has its socket finalised, by the
    attempt that follows it; the socket of the last one is what [sock]
    is bound to. *)
Lemma finalized_failed_attempts_after (host : text) (port : Z)
    (prev : option nat) (s : nat) (msgs : list text) :
  finalized (failed_attempts_after host port prev s msgs)
  ++ option_list (bound_after prev s (length msgs))
  = option_list prev ++ seq s (length msgs).
Proof.
  revert prev s. induction msgs as [|msg msgs IH]; intros prev s.
  { cbn. by rewrite app_nil_r. }
  cbn [failed_attempts_after length seq bound_after]. unfold finalized in *.
  rewrite omap_app, <- app_assoc.
  specialize (IH (Some s) (S s)).
  replace (bound_after (Some s) (S s) (length msgs))
    with (Some (s + length msgs)%nat) in IH
    by (destruct msgs; cbn; f_equal; lia).
  rewrite IH. by destruct prev.
Qed.

(** What the connector logs is no close. *)
Lemma connector_events_closed (evs : list event) :
  forallb connector_event evs = true → closed evs = [].
Proof.
  induction evs as [|e evs IH]; [done|]. cbn [forallb].
  intros [He Hevs]%andb_true_iff. unfold closed in *.
  destruct e; cbn in *; try done; by apply IH.
Qed.

(** The socket of a failed attempt does not stay open for ever, and not
    only the socket of the successful attempt is closed: after a
    refused attempt on socket 0 and an accepted one on socket 1, the
    descriptor of socket 0 has been closed, by the runtime, which
    finalised it when [sock] was bound to socket 1. *)
Lemma abandoned_socket_is_finalized :
  ¬ (∀ (host : text) (port : Z) (fuel : nat) (w : world) (r : outcome nat)
       (w' : world) (s : nat),
       connect_to_server host port fuel w = (r, w') →
       In (EvClose s) (log w') ∨ In (EvFinalize s) (log w') →
       In (EvConnect s host port true) (log w')).
Proof.
  intros H.
  specialize (H localhost 8080 2%nat (mkWorld [] [refused; Accepted 0 []] [])
                (Ok 1%nat)
                (mkWorld [fresh_socket; mkSocket (Some 5.0%Q) Connected []] []
                   (failed_attempts localhost 8080 0 [refused_msg]
                    ++ successful_attempt_after localhost 8080 (Some 0%nat) 1))
                0%nat eq_refl).
  cbn [log failed_attempts failed_attempts_after failed_attempt_after
         successful_attempt_after attempt_start released app In] in H.
  lapply H; [clear H; intros H|right; do 8 right; by left].
  unfold attempting in H.
  repeat (destruct H as [H|H]; [discriminate H|]). done.
Qed.

(** C10, amended.  The Connector never calls [close]: while it runs,
    nothing is logged but its lines, sleeps, socket creations, timeout
    settings and connects, and the runtime finalising a socket.  When
    the first attempts fail and the next one succeeds, every attempt
    has created a socket of its own, numbered consecutively; those of
    the failed attempts are left in the table as the calls left them,
    not connected and not closed by the program, and each of them has
    been finalised by the runtime, in order, when the attempt after it
    bound [sock] anew; the socket of the successful attempt has not.
    Whenever the Receiver returns, the turn of the Session Loop closes
    the socket the Connector returned.  In the log of the Session Loop
    a close is always the close of a socket whose connect succeeded,
    and comes after the reads of the Receiver on that socket. *)
Theorem failed_attempts_leave_sockets_unclosed (host : text) (port : Z) :
  (∀ fuel w r w',
     connect_to_server host port fuel w = (r, w') →
     ∃ evs, log w' = log w ++ evs
            ∧ forallb connector_event evs = true ∧ closed evs = [])
  ∧ (∀ fails msgs d stream rest ss g fuel,
       valid_port port = true →
       mapM reply_error fails = Some msgs →
       Qle_bool 5.0 d = false →
       let s := (length ss + length fails)%nat in
       let evs := failed_attempts host port (length ss) msgs
                  ++ successful_attempt_after host port
                       (bound_after None (length ss) (length fails)) s in
       connect_to_server host port (length fails + S fuel)
         (mkWorld ss (fails ++ Accepted d stream :: rest) g)
       = (Ok s,
          mkWorld
            (ss ++ replicate (length fails) (mkSocket (Some 5.0%Q) Unconnected [])
                ++ [mkSocket (Some 5.0%Q) Connected stream])
            rest (g ++ evs))
       ∧ created evs = seq (length ss) (S (length fails))
       ∧ closed evs = []
       ∧ finalized evs = seq (length ss) (length fails))
  ∧ (∀ fuel w s w1 u w2,
       connect_to_server host port fuel w = (Ok s, w1) →
       listen_for_messages fuel s w1 = (Ok u, w2) →
       ∃ w3 box,
         main_body host port fuel w = (Ok None, w3)
         ∧ log w3 = log w2 ++ [EvClose s;
                               EvPrint (lit "Connection lost. Reconnecting...")]
         ∧ socks w2 !! s = Some (mkSocket (Some 5.0%Q) Connected box)
         ∧ socks w3 !! s = Some (mkSocket (Some 5.0%Q) Closed box))
  ∧ (∀ fuel w, ∃ evs,
       log (snd (main host port fuel w)) = log w ++ evs
       ∧ ∀ i s, evs !! i = Some (EvClose s) →
           ∃ pre mid, take i evs = pre ++ EvConnect s host port true :: mid
                      ∧ forallb (receiver_event s) mid = true
                      ∧ existsb is_recv mid = true).
Proof.
  split_and!.
  - intros fuel w r w' Hrun.
    destruct (connect_events _ _ _ _ _ _ Hrun) as (evs & Hlog & Hevs).
    exists evs. split_and!; [done..|]. by apply connector_events_closed.
  - intros fails msgs d stream rest ss g fuel Hport Hfails%mapM_Some Hd s evs.
    pose proof (Forall2_length _ _ _ Hfails) as Hlen. subst s evs.
    split_and!.
    + by apply connect_retries_succeeds.
    + unfold created. rewrite omap_app.
      fold (created (failed_attempts host port (length ss) msgs)).
      rewrite created_failed_attempts, <- Hlen, seq_S.
      by destruct (bound_after None (length ss) (length fails)).
    + unfold closed. rewrite omap_app.
      fold (closed (failed_attempts host port (length ss) msgs)).
      unfold failed_attempts. rewrite closed_failed_attempts_after.
      by destruct (bound_after None (length ss) (length fails)).
    + pose proof (finalized_failed_attempts_after host port None (length ss)
                    msgs) as Hfin.
      rewrite <- Hlen in Hfin.
      change (option_list None ++ seq (length ss) (length fails))
        with (seq (length ss) (length fails)) in Hfin.
      rewrite <- Hfin. unfold finalized, failed_attempts.
      rewrite omap_app. f_equal.
      by destruct (bound_after None (length ss) (length fails)).
  - intros fuel w s w1 u w2. apply main_body_closes.
  - intros fuel w.
    destruct (main host port fuel w) as [r w'] eqn:Hrun.
    destruct (main_in_order _ _ _ _ _ _ Hrun) as (evs & q & Hlog & Hq).
    exists evs. split; [done|]. intros i s. by eapply run_close.
Qed.

(** Two refused attempts, then success: three sockets, none closed by
    the program, the first two finalised. *)
Lemma failed_attempts_leave_sockets_unclosed_witness :
  connect_to_server localhost 8080 3
    (mkWorld [] [refused; refused; Accepted 0 []] [])
  = (Ok 2%nat,
     mkWorld [fresh_socket; fresh_socket;
              mkSocket (Some 5.0%Q) Connected []] []
       (failed_attempts localhost 8080 0 [refused_msg; refused_msg]
        ++ successful_attempt_after localhost 8080 (Some 1%nat) 2))
  ∧ created (failed_attempts localhost 8080 0 [refused_msg; refused_msg]
             ++ successful_attempt_after localhost 8080 (Some 1%nat) 2)
    = [0; 1; 2]%nat
  ∧ closed (failed_attempts localhost 8080 0 [refused_msg; refused_msg]
            ++ successful_attempt_after localhost 8080 (Some 1%nat) 2)
    = []
  ∧ finalized (failed_attempts localhost 8080 0 [refused_msg; refused_msg]
               ++ successful_attempt_after localhost 8080 (Some 1%nat) 2)
    = [0; 1]%nat.
Proof.
  exact (proj1 (proj2 (failed_attempts_leave_sockets_unclosed localhost 8080))
           [refused; refused] [refused_msg; refused_msg] 0%Q [] [] [] [] 0%nat
           eq_refl eq_refl eq_refl).
Defined.

(** * Further properties of the three functions *)

(** ** What can end the client *)

Lemma listen_raises_undecodable (fuel s : nat) (w w' : world) (e : exn) :
  listen_for_messages fuel s w = (Raise e, w') →
  ∃ raw, e = UnicodeDecodeError raw ∧ Utf8.decode raw = None.
Proof.
  revert w. induction fuel as [|fuel IH]; intros w; [done|].
  rewrite listen_S, listen_body_eq.
  destruct (sock_recv s 1024 w) as [[raw|e0| |] w1] eqn:Hrecv; try done.
  - destruct (Utf8.decode raw) as [[|c data]|] eqn:Hraw; try done.
    + apply IH.
    + intros [= <- <-]. by exists raw.
  - destruct (sock_recv_raises _ _ _ _ _ Hrecv) as [msg ->]. done.
Qed.

(** X1.  An exception leaves [listen_for_messages] only as the
    [UnicodeDecodeError] of a chunk that is not UTF-8; and when the
    port is a valid port and the host one that [connect] always takes
    (ASCII, no null character), that is the only exception that leaves
    [main]: transport errors of any kind never do. *)
Theorem only_decoding_error_escapes (host : text) (port : Z) :
  (∀ fuel s w e w',
     listen_for_messages fuel s w = (Raise e, w') →
     ∃ raw, e = UnicodeDecodeError raw ∧ Utf8.decode raw = None)
  ∧ (valid_port port = true →
     ascii_host host = true →
     ∀ fuel w e w',
       main host port fuel w = (Raise e, w') →
       ∃ raw, e = UnicodeDecodeError raw ∧ Utf8.decode raw = None).
Proof.
  split; [intros fuel s w e w'; apply listen_raises_undecodable|].
  intros Hport Hhost fuel. unfold main. generalize fuel at 2. intros F.
  induction fuel as [|fuel IH]; intros w e w'; [done|].
  rewrite while_true_S, main_body_eq.
  destruct (connect_never_raises host port Hport F w Hhost)
    as [w1 [->|[s ->]]]; [done|].
  destruct (listen_for_messages F s w1) as [[u|e0| |] w2] eqn:Hlisten;
    try done.
  - apply IH.
  - intros [= <- <-]. by eapply listen_raises_undecodable.
Qed.

Lemma only_decoding_error_escapes_witness :
  ∃ raw, UnicodeDecodeError [xff] = UnicodeDecodeError raw
         ∧ Utf8.decode raw = None.
Proof.
  exact (proj2 (only_decoding_error_escapes localhost 8080) eq_refl eq_refl
           1%nat (mkWorld [] [Accepted 0 [Data 0 [xff]]] [])
           (UnicodeDecodeError [xff])
           (mkWorld [mkSocket (Some 5.0%Q) Connected []] []
              (successful_attempt localhost 8080 0
               ++ [EvRecv 0 1024 (Some [xff])]))
           eq_refl).
Defined.

(** X2.  A port outside 0..65535 ends the client at its first attempt
    whose host lookup succeeds: [connect] raises [OverflowError], which
    is no [socket.error], so neither the Connector nor [main] retries.
    One socket has been created and is left unconnected. *)
Theorem invalid_port_is_not_retried (host : text) (port : Z)
    (ss : list socket) (n : list connect_reply) (g : list event) (fuel : nat) :
  valid_port port = false →
  resolved n = true →
  let s := length ss in
  let w' := mkWorld (ss ++ [fresh_socket]) n
              (g ++ [attempting host port; EvSocket s; EvSetTimeout s 5.0%Q;
                     EvConnect s host port false]) in
  connect_to_server host port (S fuel) (mkWorld ss n g)
    = (Raise port_overflow, w')
  ∧ main host port (S fuel) (mkWorld ss n g) = (Raise port_overflow, w').
Proof.
  intros Hport Hn s w'.
  assert (connect_to_server host port (S fuel) (mkWorld ss n g)
          = (Raise port_overflow, w')) as Hconn.
  { unfold connect_to_server, call.
    rewrite while_true_S, connect_body_eq. cbn zeta.
    cbn [socks net log released_in app].
    assert (address_error host port n = Some (port_overflow, n)) as Haddr.
    { unfold address_error.
      destruct n as [|[]]; try done; destruct (c_int port); cbn;
        by rewrite ?Hport. }
    unfold sock_connect. cbn [socks net log]. rewrite Haddr. cbn.
    unfold emit, set_net. cbn. subst w' s. unfold fresh_socket.
    by rewrite <- app_assoc. }
  split; [done|].
  unfold main. by rewrite while_true_S, main_body_eq, Hconn.
Qed.

Lemma invalid_port_is_not_retried_witness :
  main localhost 70000 1 (mkWorld [] [Accepted 0 []] [])
  = (Raise port_overflow,
     mkWorld [fresh_socket] [Accepted 0 []]
       [attempting localhost 70000; EvSocket 0; EvSetTimeout 0 5.0%Q;
        EvConnect 0 localhost 70000 false]).
Proof.
  exact (proj2 (invalid_port_is_not_retried localhost 70000 []
                  [Accepted 0 []] [] 0 eq_refl eq_refl)).
Defined.

(** ** The configuration, when set *)

(** X3.  The [.env] file counts only for the variables the environment
    does not set: two [.env] files that agree on those give the same
    configuration. *)
Theorem environment_overrides_dotenv (int_of_str : text → exn + Z)
    (dotenv dotenv' environ : gmap string text) :
  (environ !! "SERVER_HOST" = None →
   dotenv !! "SERVER_HOST" = dotenv' !! "SERVER_HOST") →
  (environ !! "SERVER_PORT" = None →
   dotenv !! "SERVER_PORT" = dotenv' !! "SERVER_PORT") →
  module_init int_of_str dotenv environ = module_init int_of_str dotenv' environ.
Proof.
  intros Hhost Hport. unfold module_init, getenv, load_dotenv.
  rewrite !lookup_union.
  destruct (environ !! "SERVER_HOST") as [h|];
    destruct (environ !! "SERVER_PORT") as [p|]; cbn;
    rewrite ?union_Some_l, ?(left_id_L None union);
    rewrite <- ?Hhost, <- ?Hport by done; done.
Qed.

Lemma environment_overrides_dotenv_witness :
  module_init int_of_plain_decimal
    {[ "SERVER_HOST" := lit "10.0.0.1"; "SERVER_PORT" := lit "1" ]}
    {[ "SERVER_HOST" := lit "example.org"; "SERVER_PORT" := lit "9000" ]}
  = module_init int_of_plain_decimal ∅
      {[ "SERVER_HOST" := lit "example.org"; "SERVER_PORT" := lit "9000" ]}.
Proof.
  apply (environment_overrides_dotenv int_of_plain_decimal
           {[ "SERVER_HOST" := lit "10.0.0.1"; "SERVER_PORT" := lit "1" ]} ∅
           {[ "SERVER_HOST" := lit "example.org"; "SERVER_PORT" := lit "9000" ]});
    intros H; vm_compute in H; discriminate H.
Defined.

(** X4.  When [SERVER_PORT] is set, its text decides the start: if
    [int] rejects it, the script ends with that error before anything
    is printed or any socket is made; if [int] accepts it, the value is
    the port, and the host is [SERVER_HOST] when set and ["localhost"]
    otherwise. *)
Theorem port_text_decides_startup (int_of_str : text → exn + Z)
    (dotenv environ : gmap string text) (s : text) :
  load_dotenv dotenv environ !! "SERVER_PORT" = Some s →
  (∀ e, int_of_str s = inl e →
     ∀ fuel w, client_py int_of_str dotenv environ fuel w = (Raise e, w))
  ∧ (∀ n, int_of_str s = inr n →
       module_init int_of_str dotenv environ
       = inr (default (lit "localhost")
                (load_dotenv dotenv environ !! "SERVER_HOST"), n)).
Proof.
  intros Hs. split.
  - intros e He fuel w. unfold client_py, module_init, getenv.
    by rewrite Hs, He.
  - intros n Hn. unfold module_init, getenv. rewrite Hs, Hn.
    by destruct (load_dotenv dotenv environ !! "SERVER_HOST").
Qed.

Lemma port_text_decides_startup_witness :
  module_init int_of_plain_decimal {[ "SERVER_PORT" := lit "9000" ]} ∅
  = inr (lit "localhost", 9000).
Proof.
  exact (proj2 (port_text_decides_startup int_of_plain_decimal
                  {[ "SERVER_PORT" := lit "9000" ]} ∅ (lit "9000") eq_refl)
           9000 eq_refl).
Defined.

(** ** Retrying without end *)

Lemma failed_attempts_app (host : text) (port : Z) (prev : option nat)
    (s : nat) (msgs1 msgs2 : list text) :
  failed_attempts_after host port prev s (msgs1 ++ msgs2)
  = failed_attempts_after host port prev s msgs1
    ++ failed_attempts_after host port (bound_after prev s (length msgs1))
         (s + length msgs1) msgs2.
Proof.
  revert prev s.
  induction msgs1 as [|msg msgs1 IH]; intros prev s; cbn [app length].
  - by rewrite Nat.add_0_r.
  - cbn [failed_attempts_after]. rewrite IH, <- app_assoc.
    replace (bound_after (Some s) (S s) (length msgs1))
      with (bound_after prev s (S (length msgs1)))
      by (destruct msgs1; cbn; f_equal; lia).
    by replace (S s + length msgs1)%nat with (s + S (length msgs1))%nat by lia.
Qed.

Lemma connect_unanswered (host : text) (port : Z) (k : nat) :
  valid_port port = true →
  ∀ prev ss g,
    unclosed ss prev →
    while_true k (connect_to_server_body host port) (prev, mkWorld ss [] g)
    = (OutOfFuel,
       (bound_after prev (length ss) k,
        mkWorld (ss ++ replicate k fresh_socket) []
          (g ++ failed_attempts_after host port prev (length ss)
                  (replicate k (lit "timed out"))))).
Proof.
  intros Hport. induction k as [|k IH]; intros prev ss g Hprev.
  - cbn. by rewrite !app_nil_r.
  - rewrite while_true_S.
    rewrite (connect_body_fails host port Hport _ _ (lit "timed out")) by done.
    cbn [socks net log tail].
    rewrite IH by (by apply unclosed_snoc). rewrite length_app. cbn.
    rewrite Nat.add_1_r.
    replace (bound_after (Some (length ss)) (S (length ss)) k)
      with (Some (length ss + k)%nat)
      by (destruct k; cbn; f_equal; lia).
    by log_norm.
Qed.

(** X5.  There is no bound on the retries.  While the network fails the
    attempts (with messages [msgs]) and then no longer answers, the
    Connector neither returns nor raises however long it runs: after
    any number of turns it has made that many attempts, each on a
    socket of its own, and printed that many failure notices. *)
Theorem connector_retries_without_bound (host : text) (port : Z)
    (fails : list connect_reply) (msgs : list text) (ss : list socket)
    (g : list event) (k : nat) :
  valid_port port = true →
  mapM reply_error fails = Some msgs →
  let turns := (length fails + k)%nat in
  let evs := failed_attempts host port (length ss)
               (msgs ++ replicate k (lit "timed out")) in
  connect_to_server host port turns (mkWorld ss fails g)
  = (OutOfFuel, mkWorld (ss ++ replicate turns fresh_socket) [] (g ++ evs))
  ∧ count failure_notice evs = turns
  ∧ created evs = seq (length ss) turns.
Proof.
  intros Hport Hfails%mapM_Some turns evs.
  pose proof (Forall2_length _ _ _ Hfails) as Hlen.
  split_and!.
  - subst turns evs. unfold connect_to_server, call.
    pose proof (connect_retries host port Hport fails msgs Hfails k None ss []
                  g I) as Hretry.
    rewrite app_nil_r in Hretry. rewrite Hretry.
    rewrite (connect_unanswered host port k Hport)
      by (by apply unclosed_bound_after).
    cbn [snd]. unfold failed_attempts.
    rewrite failed_attempts_app, length_app, length_replicate, replicate_add.
    by rewrite <- Hlen, <- !app_assoc.
  - subst evs.
    destruct (count_failed_attempts host port (length ss)
                (msgs ++ replicate k (lit "timed out"))) as (-> & _ & _).
    rewrite length_app, length_replicate. by subst turns; rewrite Hlen.
  - subst evs. rewrite created_failed_attempts, length_app, length_replicate.
    by subst turns; rewrite Hlen.
Qed.

Lemma connector_retries_without_bound_witness :
  connect_to_server localhost 8080 3 (mkWorld [] [refused] [])
  = (OutOfFuel,
     mkWorld [fresh_socket; fresh_socket; fresh_socket] []
       (failed_attempts localhost 8080 0
          [refused_msg; lit "timed out"; lit "timed out"])).
Proof.
  exact (proj1 (connector_retries_without_bound localhost 8080 [refused]
                  [refused_msg] [] [] 2 eq_refl eq_refl)).
Defined.

(** ** Payloads longer than one read *)

Lemma chunks_nil (m : nat) : chunks m [] = [].
Proof. by destruct m. Qed.

Lemma listen_pieces (s : nat) (t : option Q) (n : list connect_reply)
    (rest : list recv_reply) (fuel : nat) :
  expires t 0 = false →
  ∀ (m : nat) (payload : bytes) (d : Q) ss g traces,
    payload ≠ [] →
    (length payload ≤ 1024 * m)%nat →
    ss !! s = Some (mkSocket t Connected (Data d payload :: rest)) →
    expires t d = false →
    Forall2 (fun c evs => shown s c = Some evs) (chunks m payload) traces →
    listen_for_messages (length traces + fuel) s (mkWorld ss n g) =
    listen_for_messages fuel s
      (mkWorld (<[s := mkSocket t Connected rest]> ss) n (g ++ concat traces)).
Proof.
  intros Ht0. induction m as [|m IH];
    intros payload d ss g traces Hne Hlen Hs Hd Htraces.
  { destruct payload; [done|]. cbn in Hlen. lia. }
  destruct payload as [|b payload]; [done|].
  cbn [chunks] in Htraces.
  apply Forall2_cons_inv_l in Htraces as (evs & traces' & Hshown & Htraces & ->).
  set (whole := b :: payload) in *.
  cbn [length Nat.add concat]. rewrite listen_S, listen_body_eq.
  rewrite (sock_recv_data ss n g s t _ Hs 1024 d whole rest) by done.
  unfold shown in Hshown.
  destruct (Utf8.decode (take 1024 whole)) as [[|c data]|]; simplify_eq.
  unfold emit. cbn [socks net log].
  pose proof (lookup_lt_Some _ _ _ Hs) as Hlt.
  unfold after_chunk. destruct (drop 1024 whole) as [|b' more] eqn:Hdrop.
  - rewrite chunks_nil in Htraces. apply Forall2_nil_inv_l in Htraces as ->.
    cbn [length Nat.add concat]. unfold received.
    by rewrite ?app_nil_r, <- ?app_assoc.
  - rewrite (IH (b' :: more) 0%Q _ _ traces').
    + rewrite list_insert_insert_eq. unfold received.
      by rewrite <- !app_assoc.
    + done.
    + rewrite <- Hdrop, length_drop. lia.
    + by apply list_lookup_insert_eq.
    + done.
    + done.
Qed.

(** X6.  What arrives is shown in pieces of 1024 bytes, not as lines: a
    payload of any length, each of whose pieces decodes to text that is
    not empty, is printed as one message per piece, in order, each
    piece stripped on its own, and the Receiver goes on. *)
Theorem long_payload_is_shown_in_pieces (s : nat) (t : option Q)
    (ss : list socket) (n : list connect_reply) (g : list event) (d : Q)
    (payload : bytes) (rest : list recv_reply) (traces : list (list event))
    (fuel : nat) :
  ss !! s = Some (mkSocket t Connected (Data d payload :: rest)) →
  expires t d = false → expires t 0 = false →
  payload ≠ [] →
  mapM (shown s) (chunks (length payload) payload) = Some traces →
  listen_for_messages (length traces + fuel) s (mkWorld ss n g) =
  listen_for_messages fuel s
    (mkWorld (<[s := mkSocket t Connected rest]> ss) n (g ++ concat traces)).
Proof.
  intros Hs Hd Ht0 Hne Htraces%mapM_Some.
  eapply (listen_pieces s t n rest fuel Ht0 (length payload)); try done. lia.
Qed.

(** 1024 times [a], then [bc]: two messages. *)
Lemma long_payload_is_shown_in_pieces_witness :
  listen_for_messages 2 0
    (connected [Data 0 (replicate 1024 x61 ++ [x62; x63])])
  = listen_for_messages 0 0
      (mkWorld [mkSocket (Some 5.0%Q) Connected []] []
         (received 0 (replicate 1024 x61) (replicate 1024 97%N)
          ++ received 0 [x62; x63] [98%N; 99%N])).
Proof.
  apply (long_payload_is_shown_in_pieces 0 (Some 5.0%Q)
           [mkSocket (Some 5.0%Q) Connected
              [Data 0 (replicate 1024 x61 ++ [x62; x63])]]
           [] [] 0 (replicate 1024 x61 ++ [x62; x63]) []
           [received 0 (replicate 1024 x61) (replicate 1024 97%N);
            received 0 [x62; x63] [98%N; 99%N]] 0);
    [reflexivity | reflexivity | reflexivity | discriminate
    | vm_compute; reflexivity].
Defined.

(** X7.  Each piece is decoded by itself.  When the first 1024 bytes of
    what has arrived are not UTF-8 on their own, the Receiver is left
    by [UnicodeDecodeError] with those bytes consumed, whatever follows
    them; and there are payloads that are valid UTF-8 as a whole whose
    first 1024 bytes are not (a character of several bytes lying
    across the boundary). *)
Theorem split_character_ends_the_receiver :
  (∀ (fuel s : nat) (t : option Q) (ss : list socket)
     (n : list connect_reply) (g : list event) (d : Q) (payload : bytes)
     (rest : list recv_reply),
     ss !! s = Some (mkSocket t Connected (Data d payload :: rest)) →
     expires t d = false →
     Utf8.decode (take 1024 payload) = None →
     listen_for_messages (S fuel) s (mkWorld ss n g) =
       (Raise (UnicodeDecodeError (take 1024 payload)),
        mkWorld
          (<[s := mkSocket t Connected (after_chunk 1024 payload rest)]> ss) n
          (g ++ [EvRecv s 1024 (Some (take 1024 payload))])))
  ∧ (let payload := replicate 1023 x61 ++ [xe2; x82; xac] in
     Utf8.decode payload = Some (replicate 1023 97%N ++ [8364%N])
     ∧ Utf8.decode (take 1024 payload) = None).
Proof.
  split.
  - intros fuel s t ss n g d payload rest Hs Hd Hraw.
    rewrite listen_S, listen_body_eq.
    by rewrite (sock_recv_data ss n g s t _ Hs 1024 d payload rest), Hraw.
  - split; vm_compute; reflexivity.
Qed.

Lemma split_character_ends_the_receiver_witness :
  listen_for_messages 1 0
    (connected [Data 0 (replicate 1023 x61 ++ [xe2; x82; xac])])
  = (Raise (UnicodeDecodeError (replicate 1023 x61 ++ [xe2])),
     mkWorld [mkSocket (Some 5.0%Q) Connected [Data 0 [x82; xac]]] []
       [EvRecv 0 1024 (Some (replicate 1023 x61 ++ [xe2]))]).
Proof.
  apply (proj1 split_character_ends_the_receiver 0%nat 0%nat (Some 5.0%Q)
           [mkSocket (Some 5.0%Q) Connected
              [Data 0 (replicate 1023 x61 ++ [xe2; x82; xac])]]
           [] [] 0%Q (replicate 1023 x61 ++ [xe2; x82; xac]) []);
    [reflexivity | reflexivity | vm_compute; reflexivity].
Defined.

(** ** Connections open at a time *)

Lemma count_cons {A} (f : A → bool) (x : A) (l : list A) :
  count f (x :: l) = ((if f x then 1 else 0) + count f l)%nat.
Proof. unfold count. cbn. by destruct (f x). Qed.

Lemma count_insert {A} (f : A → bool) (l : list A) (i : nat) (x y : A) :
  l !! i = Some x →
  (count f (<[i := y]> l) + (if f x then 1 else 0)
   = count f l + (if f y then 1 else 0))%nat.
Proof.
  revert i. induction l as [|z l IH]; intros [|i] Hi; simplify_eq/=.
  - rewrite !count_cons. lia.
  - rewrite !count_cons. specialize (IH i Hi). lia.
Qed.

Lemma sock_recv_open (s bufsize : nat) (w w' : world) (r : outcome bytes) :
  sock_recv s bufsize w = (r, w') →
  count is_open (socks w') = count is_open (socks w).
Proof.
  unfold sock_recv. destruct (socks w !! s) as [[t st box0]|] eqn:Hs;
    [|by intros [= <- <-]].
  assert (∀ box, count is_open (<[s := mkSocket t st box]> (socks w))
                 = count is_open (socks w)) as Hkeep.
  { intros box.
    pose proof (count_insert is_open _ _ _ (mkSocket t st box) Hs) as H.
    unfold is_open in *. cbn in H. destruct st; lia. }
  cbn [status inbox timeout]. destruct st; try by intros [= <- <-].
  repeat (case_match; try done); intros [= <- <-];
    unfold emit, set_socket; cbn [socks]; by rewrite ?Hkeep.
Qed.

Lemma listen_open (fuel s : nat) (w w' : world) (r : outcome unit) :
  listen_for_messages fuel s w = (r, w') →
  count is_open (socks w') = count is_open (socks w).
Proof.
  revert w. induction fuel as [|fuel IH]; intros w; [by intros [= <- <-]|].
  rewrite listen_S, listen_body_eq.
  destruct (sock_recv s 1024 w) as [rr w1] eqn:Hrecv.
  apply sock_recv_open in Hrecv as <-.
  destruct rr as [raw|e| |]; try by intros [= <- <-].
  - destruct (Utf8.decode raw) as [[|c data]|]; try by intros [= <- <-].
    intros Hrun. by rewrite (IH _ Hrun).
  - destruct (socket_error e); by intros [= <- <-].
Qed.

Lemma sock_connect_open (s : nat) (host : text) (port : Z) (ss : list socket)
    (sk : socket) (n : list connect_reply) (g : list event) (w' : world)
    (r : outcome unit) :
  is_open sk = false →
  sock_connect (length ss) host port (mkWorld (ss ++ [sk]) n g) = (r, w') →
  count is_open (socks w')
  = (count is_open ss + match r with Ok _ => 1 | _ => 0 end)%nat.
Proof.
  intros Hsk. unfold sock_connect. cbn [socks net log].
  rewrite lookup_snoc_last.
  assert (count is_open (ss ++ [sk]) = (count is_open ss + 0)%nat) as Hsame.
  { rewrite count_app, count_cons, Hsk. done. }
  repeat (case_match; try done); intros ?; simplify_eq;
    unfold emit, set_net, set_socket; cbn [socks]; try done.
  rewrite insert_snoc_last, count_app, count_cons. done.
Qed.

Lemma connect_loop_open (host : text) (port : Z) (fuel : nat) :
  ∀ prev w r f,
    while_true fuel (connect_to_server_body host port) (prev, w) = (r, f) →
    count is_open (socks (snd f))
    = (count is_open (socks w) + match r with Ok _ => 1 | _ => 0 end)%nat.
Proof.
  induction fuel as [|fuel IH]; intros prev w r f.
  { intros [= <- <-]. cbn. lia. }
  rewrite while_true_S, connect_body_eq. cbn zeta.
  destruct (sock_connect _ _ _ _) as [rc w2] eqn:Hconn.
  apply (sock_connect_open 0) in Hconn; [|done].
  destruct rc as [u|e| |].
  - intros [= <- <-]. unfold emit. cbn [snd socks]. lia.
  - destruct (socket_error e).
    + intros Hrun. apply IH in Hrun. unfold emit in Hrun. cbn [socks] in Hrun.
      lia.
    + intros [= <- <-]. cbn [snd]. lia.
  - intros [= <- <-]. cbn [snd]. lia.
  - intros [= <- <-]. cbn [snd]. lia.
Qed.

Lemma connect_open (host : text) (port : Z) (fuel : nat) (w w' : world)
    (r : outcome nat) :
  connect_to_server host port fuel w = (r, w') →
  count is_open (socks w')
  = (count is_open (socks w) + match r with Ok _ => 1 | _ => 0 end)%nat.
Proof.
  unfold connect_to_server, call.
  destruct (while_true fuel _ _) as [r0 f] eqn:Hloop. intros [= <- <-].
  by eapply connect_loop_open.
Qed.

Lemma main_body_open (host : text) (port : Z) (fuel : nat) (w : world) :
  match main_body host port fuel w with
  | (Ok _, w') => count is_open (socks w') = count is_open (socks w)
  | (_, w') => (count is_open (socks w') ≤ count is_open (socks w) + 1)%nat
  end.
Proof.
  rewrite main_body_eq.
  destruct (connect_to_server host port fuel w) as [[s|e| |] w1] eqn:Hconn;
    pose proof (connect_open _ _ _ _ _ _ Hconn) as Hc; cbv iota in Hc;
    try lia.
  destruct (connect_socket _ _ _ _ _ _ Hconn) as [stream Hs1].
  destruct (listen_for_messages fuel s w1) as [[u|e| |] w2] eqn:Hlisten;
    pose proof (listen_open _ _ _ _ _ Hlisten) as Hl; try lia.
  destruct (listen_socket _ _ _ _ _ _ Hlisten Hs1) as [box Hs2]. cbn in Hs2.
  unfold sock_close. rewrite Hs2. unfold emit, set_socket.
  cbn [snd socks timeout inbox].
  pose proof (count_insert is_open _ _ _
                (mkSocket (Some 5.0%Q) Closed box) Hs2) as H.
  change (is_open (mkSocket (Some 5.0%Q) Connected box)) with true in H.
  change (is_open (mkSocket (Some 5.0%Q) Closed box)) with false in H.
  cbv iota in H. lia.
Qed.

(** X8.  The client never holds two connections.  A turn of the Session
    Loop that comes to its end leaves as many sockets connected as it
    found; and however a run of [main] stops, at most one socket more
    is connected than at its start. *)
Theorem at_most_one_connection_open (host : text) (port : Z) (fuel : nat)
    (w : world) :
  match main_body host port fuel w with
  | (Ok _, w') => count is_open (socks w') = count is_open (socks w)
  | (_, w') => (count is_open (socks w') ≤ count is_open (socks w) + 1)%nat
  end
  ∧ (count is_open (socks (snd (main host port fuel w)))
     ≤ count is_open (socks w) + 1)%nat.
Proof.
  split; [apply main_body_open|].
  unfold main. generalize fuel at 2. intros F. revert w.
  induction fuel as [|fuel IH]; intros w; [cbn; lia|].
  rewrite while_true_S.
  pose proof (main_body_open host port F w) as Hturn.
  destruct (main_body host port F w) as [[[[]|]|e| |] w1]; cbn; try lia.
  rewrite <- Hturn. apply IH.
Qed.

(** ** Whole streams and successive sessions *)

Lemma stream_events_cons (s : nat) (r : recv_reply) (rest : list recv_reply)
    (evs : list event) :
  stream_events s (r :: rest) = Some evs →
  (∃ d, r = Data d [] ∧ rest = [] ∧ Qle_bool 5.0 d = false
        ∧ evs = [EvRecv s 1024 (Some []);
                 EvPrint (lit "Server closed the connection.")])
  ∨ (∃ evs1 tl, delivery s (Some 5.0%Q) r = Some evs1
                ∧ stream_events s rest = Some tl
                ∧ evs = evs1 ++ tl).
Proof.
  intros Hevs. cbn [stream_events] in Hevs.
  destruct r as [d [|b payload]|d msg], rest as [|r' rest'];
    simplify_option_eq; eauto 10.
  left. exists d. by destruct (Qle_bool 5.0 d); simplify_eq.
Qed.

Lemma delivery_received (s : nat) (t : option Q) (r : recv_reply)
    (evs : list event) :
  delivery s t r = Some evs → ∃ chunk data, evs = received s chunk data.
Proof.
  unfold delivery. repeat (case_match; try done). intros [= <-]. eauto.
Qed.

Lemma listen_stream (s : nat) (n : list connect_reply) (fuel : nat)
    (stream : list recv_reply) :
  ∀ ss g evs,
    ss !! s = Some (mkSocket (Some 5.0%Q) Connected stream) →
    stream_events s stream = Some evs →
    listen_for_messages (length stream + fuel) s (mkWorld ss n g) =
      (Ok tt,
       mkWorld (<[s := mkSocket (Some 5.0%Q) Connected []]> ss) n (g ++ evs)).
Proof.
  induction stream as [|r rest IH]; intros ss g evs Hs Hevs; [done|].
  destruct (stream_events_cons _ _ _ _ Hevs) as [Hlast|Hmore].
  - destruct Hlast as (d & -> & -> & Hd & ->).
    cbn [length Nat.add]. rewrite listen_S, listen_body_eq.
    rewrite (sock_recv_data ss n g s (Some 5.0%Q) _ Hs 1024 d [] []) by done.
    cbn. unfold emit. cbn. by rewrite <- app_assoc.
  - destruct Hmore as (evs1 & tl & Hr & Htl & ->).
    pose proof (listen_delivers s (Some 5.0%Q) n [r] [evs1]
                  ltac:(by repeat constructor) (length rest + fuel) ss g rest Hs)
      as Hstep.
    cbn [length Nat.add app concat] in *. rewrite Hstep.
    rewrite (IH _ _ tl); [|by apply list_lookup_insert_eq,
                               (lookup_lt_Some _ _ _ Hs)|done].
    by rewrite list_insert_insert_eq, app_nil_r, <- app_assoc.
Qed.

(** X9.  Over a stream of messages that ends with the peer closing the
    connection, each arriving in time, the Receiver returns, given fuel
    for one turn per reply; it has taken everything from the socket and
    logged, in order, one read and one line per message and then the
    read of nothing and the clean-close line. *)
Theorem receiver_runs_through_stream (s : nat) (ss : list socket)
    (n : list connect_reply) (g : list event) (stream : list recv_reply)
    (evs : list event) (fuel : nat) :
  ss !! s = Some (mkSocket (Some 5.0%Q) Connected stream) →
  stream_events s stream = Some evs →
  listen_for_messages (length stream + fuel) s (mkWorld ss n g) =
    (Ok tt,
     mkWorld (<[s := mkSocket (Some 5.0%Q) Connected []]> ss) n (g ++ evs))
  ∧ count is_recv evs = length stream
  ∧ last evs = Some (EvPrint (lit "Server closed the connection.")).
Proof.
  intros Hs Hevs. split; [by apply listen_stream|].
  clear Hs. revert evs Hevs.
  induction stream as [|r rest IH]; intros evs Hevs; [done|].
  destruct (stream_events_cons _ _ _ _ Hevs)
    as [(d & -> & -> & Hd & ->)|(evs1 & tl & Hr & Htl & ->)]; [done|].
  destruct (IH _ Htl) as [IHn IHl].
  destruct (delivery_received _ _ _ _ Hr) as (chunk & data & ->).
  rewrite count_app, IHn. split; [done|].
  unfold received. cbn [app]. destruct tl; [done|]. exact IHl.
Qed.

Lemma receiver_runs_through_stream_witness :
  listen_for_messages 2 0 (connected [Data 0 hello_nl; Data 0 []])
  = (Ok tt,
     mkWorld [mkSocket (Some 5.0%Q) Connected []] []
       [EvRecv 0 1024 (Some hello_nl);
        EvPrint (lit "Received from server: hello");
        EvRecv 0 1024 (Some []);
        EvPrint (lit "Server closed the connection.")]).
Proof.
  exact (proj1 (receiver_runs_through_stream 0
                  [mkSocket (Some 5.0%Q) Connected [Data 0 hello_nl; Data 0 []]]
                  [] [] [Data 0 hello_nl; Data 0 []] _ 0 eq_refl eq_refl)).
Defined.

Lemma receiver_events_sockets (s : nat) (evs : list event) :
  forallb (receiver_event s) evs = true → created evs = [] ∧ closed evs = [].
Proof.
  induction evs as [|e evs IH]; [done|]. cbn [forallb].
  intros [He Hevs]%andb_true_iff. destruct (IH Hevs) as [IH1 IH2].
  unfold created, closed in *. by destruct e; cbn; rewrite ?IH1, ?IH2.
Qed.

Lemma stream_events_receiver (s : nat) (stream : list recv_reply)
    (evs : list event) :
  stream_events s stream = Some evs → forallb (receiver_event s) evs = true.
Proof.
  revert evs. induction stream as [|r rest IH]; intros evs Hevs; [done|].
  destruct (stream_events_cons _ _ _ _ Hevs)
    as [(d & -> & -> & Hd & ->)|(evs1 & tl & Hr & Htl & ->)].
  - cbn. by rewrite bool_decide_eq_true_2.
  - destruct (delivery_received _ _ _ _ Hr) as (chunk & data & ->).
    rewrite forallb_app, (IH _ Htl). cbn. by rewrite bool_decide_eq_true_2.
Qed.

Lemma main_body_clean_session (host : text) (port : Z) (F : nat)
    (ss : list socket) (d : Q) (stream : list recv_reply)
    (rest : list connect_reply) (g evs : list event) :
  valid_port port = true →
  Qle_bool 5.0 d = false →
  stream_events (length ss) stream = Some evs →
  (length stream < F)%nat →
  main_body host port F (mkWorld ss (Accepted d stream :: rest) g)
  = (Ok None,
     mkWorld (ss ++ [mkSocket (Some 5.0%Q) Closed []]) rest
       (g ++ successful_attempt host port (length ss) ++ evs
          ++ [EvClose (length ss);
              EvPrint (lit "Connection lost. Reconnecting...")])).
Proof.
  intros Hport Hd Hevs HF. rewrite main_body_eq.
  destruct F as [|F']; [lia|].
  rewrite (connect_first_succeeds host port Hport _ _ d stream rest) by done.
  cbn [socks net log].
  replace (S F') with (length stream + (S F' - length stream))%nat by lia.
  rewrite (listen_stream (length ss) rest _ stream _ _ evs
             (lookup_snoc_last _ _) Hevs).
  rewrite insert_snoc_last, sock_close_last. unfold emit.
  cbn [snd socks net log timeout inbox]. by rewrite <- !app_assoc.
Qed.

(** X10.  Sessions follow one another without sharing anything.  When
    the network accepts the next attempts one after the other and each
    connection ends in a clean close, the Session Loop spends one turn
    per connection: every connection gets a socket of its own, numbered
    consecutively, the sockets are closed in the order created, each
    once, and the log is the logs of the sessions one after the other.
    The fuel of the inner loops has to exceed the longest stream. *)
Theorem sessions_follow_one_another (host : text) (port : Z)
    (replies rest : list connect_reply) (ss : list socket) (g evs : list event)
    (F k : nat) :
  valid_port port = true →
  sessions_events host port (length ss) replies = Some evs →
  (longest_stream replies < F)%nat →
  while_true (length replies + k) (main_body host port F)
    (mkWorld ss (replies ++ rest) g)
  = while_true k (main_body host port F)
      (mkWorld (ss ++ replicate (length replies)
                        (mkSocket (Some 5.0%Q) Closed []))
               rest (g ++ evs))
  ∧ created evs = seq (length ss) (length replies)
  ∧ closed evs = seq (length ss) (length replies).
Proof.
  intros Hport. revert ss g evs.
  induction replies as [|r replies IH]; intros ss g evs Hevs HF.
  { cbn in *. simplify_eq. by rewrite !app_nil_r. }
  cbn [sessions_events] in Hevs.
  destruct r as [msg|d msg|d stream|msg]; try done.
  destruct (Qle_bool 5.0 d) eqn:Hd; [done|].
  destruct (stream_events (length ss) stream) as [evs1|] eqn:Hevs1; [|done].
  destruct (sessions_events host port (S (length ss)) replies) as [tl|] eqn:Htl;
    [|done].
  change (Some (successful_attempt host port (length ss) ++ evs1
                ++ [EvClose (length ss);
                    EvPrint (lit "Connection lost. Reconnecting...")]
                ++ tl) = Some evs) in Hevs.
  injection Hevs as <-.
  cbn [longest_stream foldr] in HF. fold (longest_stream replies) in HF.
  destruct (IH (ss ++ [mkSocket (Some 5.0%Q) Closed []])
              (g ++ successful_attempt host port (length ss) ++ evs1
                 ++ [EvClose (length ss);
                     EvPrint (lit "Connection lost. Reconnecting...")]) tl)
    as (IHrun & IHc & IHd).
  { by rewrite length_app, Nat.add_1_r. }
  { lia. }
  rewrite length_app, Nat.add_1_r in IHc, IHd.
  destruct (receiver_events_sockets _ _ (stream_events_receiver _ _ _ Hevs1))
    as [Hc1 Hd1].
  split_and!.
  - cbn [length Nat.add app]. rewrite while_true_S.
    rewrite (main_body_clean_session host port F ss d stream
               (replies ++ rest) g evs1) by (done || lia).
    rewrite IHrun. cbn [replicate]. by rewrite <- !app_assoc.
  - unfold created in *. cbn [omap list_omap length seq].
    rewrite omap_app, Hc1. cbn [app omap list_omap]. by rewrite IHc.
  - unfold closed in *. cbn [omap list_omap length seq].
    rewrite omap_app, Hd1. cbn [app omap list_omap]. by rewrite IHd.
Qed.

Lemma sessions_follow_one_another_witness :
  while_true 2 (main_body localhost 8080 3)
    (mkWorld [] [Accepted 0 [Data 0 hello_nl; Data 0 []]; Accepted 0 [Data 0 []]]
       [])
  = while_true 0 (main_body localhost 8080 3)
      (mkWorld [mkSocket (Some 5.0%Q) Closed [];
                mkSocket (Some 5.0%Q) Closed []] []
         (successful_attempt localhost 8080 0
          ++ [EvRecv 0 1024 (Some hello_nl);
              EvPrint (lit "Received from server: hello");
              EvRecv 0 1024 (Some []);
              EvPrint (lit "Server closed the connection.");
              EvClose 0;
              EvPrint (lit "Connection lost. Reconnecting...")]
          ++ successful_attempt localhost 8080 1
          ++ [EvRecv 1 1024 (Some []);
              EvPrint (lit "Server closed the connection.");
              EvClose 1;
              EvPrint (lit "Connection lost. Reconnecting...")])).
Proof.
  exact (proj1 (sessions_follow_one_another localhost 8080
                  [Accepted 0 [Data 0 hello_nl; Data 0 []];
                   Accepted 0 [Data 0 []]] [] [] [] _ 3 0
                  eq_refl eq_refl ltac:(cbn; lia))).
Defined.

(** ** A peer that sends ASCII only *)

Lemma forallb_Forall {A} (f : A → bool) (l : list A) :
  forallb f l = true ↔ Forall (fun x => f x = true) l.
Proof.
  induction l as [|x l IH]; cbn; [by split|].
  rewrite andb_true_iff, Forall_cons, IH. done.
Qed.

Lemma ascii_world_invariant (w : world) :
  ascii_world w = true ↔ ascii_invariant w.
Proof.
  unfold ascii_world, ascii_invariant.
  rewrite andb_true_iff, !forallb_Forall.
  by setoid_rewrite forallb_Forall.
Qed.

Lemma decode_ascii (raw : bytes) :
  forallb (fun b => (Byte.to_N b <? 128)%N) raw = true →
  Utf8.decode raw = Some (map Byte.to_N raw).
Proof.
  unfold Utf8.decode. induction raw as [|b raw IH]; [done|].
  cbn [forallb map]. intros [Hb Hraw]%andb_true_iff.
  cbn [Utf8.decode_N]. by rewrite Hb, (IH Hraw).
Qed.

Lemma ascii_after_chunk (bufsize : nat) (payload : bytes)
    (rest : list recv_reply) :
  ascii_payload (Data 0 payload) = true →
  Forall (fun r => ascii_payload r = true) rest →
  Forall (fun r => ascii_payload r = true) (after_chunk bufsize payload rest).
Proof.
  intros Hp Hrest. unfold after_chunk.
  destruct (drop bufsize payload) as [|b more] eqn:Hdrop; [done|].
  constructor; [|done]. unfold ascii_payload in *. rewrite <- Hdrop.
  apply forallb_Forall, Forall_drop. by apply forallb_Forall.
Qed.

Lemma ascii_after_wait (t : Q) (box : list recv_reply) :
  Forall (fun r => ascii_payload r = true) box →
  Forall (fun r => ascii_payload r = true) (after_wait t box).
Proof.
  intros Hbox. destruct box as [|[d payload|d msg] rest]; [done| |].
  - apply Forall_cons in Hbox as [Hp Hrest]. by constructor.
  - apply Forall_cons in Hbox as [Hp Hrest]. by constructor.
Qed.

(** A read keeps the invariant, and what it returns is ASCII. *)
Lemma sock_recv_ascii (s bufsize : nat) (w w' : world) (r : outcome bytes) :
  ascii_invariant w → sock_recv s bufsize w = (r, w') →
  ascii_invariant w'
  ∧ match r with
    | Ok raw => forallb (fun b => (Byte.to_N b <? 128)%N) raw = true
    | _ => True
    end.
Proof.
  intros Hinv. pose proof Hinv as [Hnet Hsocks]. unfold sock_recv.
  assert (∀ e w0, ascii_invariant w0 → ascii_invariant (emit e w0)) as Hemit.
  { by intros e w0 []. }
  destruct (socks w !! s) as [[t st box]|] eqn:Hs;
    [|intros [= <- <-]; split; [by apply Hemit|done]].
  pose proof (Forall_lookup_1 _ _ _ _ Hsocks Hs) as Hbox. cbn in Hbox.
  assert (∀ box', Forall (fun r => ascii_payload r = true) box' →
            ascii_invariant
              (set_socket s (mkSocket t st box') w)) as Hkeep.
  { intros box' Hbox'. split; [done|]. cbn. by apply Forall_insert. }
  cbn [status inbox timeout].
  destruct st; try (intros [= <- <-]; split; [by apply Hemit|done]).
  destruct box as [|[d payload|d msg] rest].
  - destruct t; intros [= <- <-]; (split; [|done]); [by apply Hemit|done].
  - destruct (expires t d); intros [= <- <-]; split; try done.
    + by apply Hemit, Hkeep, (ascii_after_wait _ (Data d payload :: rest)).
    + apply Forall_cons in Hbox as [Hp Hrest].
      by apply Hemit, Hkeep, ascii_after_chunk.
    + apply Forall_cons in Hbox as [Hp Hrest]. unfold ascii_payload in Hp.
      apply forallb_Forall, Forall_take. by apply forallb_Forall.
  - destruct (expires t d); intros [= <- <-]; split; try done.
    + by apply Hemit, Hkeep, (ascii_after_wait _ (Broken d msg :: rest)).
    + apply Forall_cons in Hbox as [Hp Hrest]. by apply Hemit, Hkeep.
Qed.

Lemma sock_recv_blocked (s bufsize : nat) (w w' : world) :
  sock_recv s bufsize w = (Blocked, w') →
  ∃ sk, socks w !! s = Some sk ∧ timeout sk = None.
Proof.
  unfold sock_recv. destruct (socks w !! s) as [[t st box]|]; [|done].
  cbn [status inbox timeout].
  destruct st; try done.
  destruct box as [|[d payload|d msg] rest].
  - destruct t; [done|]. intros _. by eexists.
  - by destruct (expires t d).
  - by destruct (expires t d).
Qed.

Lemma listen_ascii (fuel s : nat) (w w' : world) (r : outcome unit)
    (sk : socket) (t : Q) :
  ascii_invariant w →
  socks w !! s = Some sk → timeout sk = Some t →
  listen_for_messages fuel s w = (r, w') →
  ascii_invariant w' ∧ (r = Ok tt ∨ r = OutOfFuel).
Proof.
  revert w sk. induction fuel as [|fuel IH]; intros w sk Hinv Hs Ht.
  { intros [= <- <-]. eauto. }
  rewrite listen_S, listen_body_eq.
  destruct (sock_recv s 1024 w) as [rr w1] eqn:Hrecv.
  destruct (sock_recv_ascii _ _ _ _ _ Hinv Hrecv) as [Hinv1 Hraw].
  destruct (sock_recv_socket _ _ _ _ _ _ Hrecv Hs) as [box Hs1].
  assert (∀ e, ascii_invariant (emit e w1)) as Hemit.
  { intros e. by destruct Hinv1. }
  destruct rr as [raw|e| |].
  - rewrite (decode_ascii _ Hraw).
    destruct (map Byte.to_N raw) as [|c data].
    + intros [= <- <-]. eauto.
    + intros Hrun. by eapply (IH _ _ (Hemit _) Hs1).
  - destruct (sock_recv_raises _ _ _ _ _ Hrecv) as [msg ->]. cbn.
    intros [= <- <-]. eauto.
  - apply sock_recv_blocked in Hrecv as (sk' & Hs' & Ht').
    rewrite Hs in Hs'. by simplify_eq.
  - intros [= <- <-]. eauto.
Qed.

Lemma address_error_rest (host : text) (port : Z) (n rest : list connect_reply)
    (e : exn) :
  address_error host port n = Some (e, rest) → rest = n ∨ rest = tail n.
Proof.
  unfold address_error. repeat (case_match; try done); intros [= <- <-]; eauto.
Qed.

Lemma sock_connect_ascii (s : nat) (host : text) (port : Z) (w w' : world)
    (r : outcome unit) :
  ascii_invariant w → sock_connect s host port w = (r, w') →
  ascii_invariant w'.
Proof.
  destruct w as [ss n g]. intros [Hnet Hsocks]. cbn in Hnet, Hsocks.
  unfold sock_connect. cbn [socks net log].
  assert (∀ rest e, Forall (fun r => ascii_reply r = true) rest →
            ascii_invariant (emit e (set_net rest (mkWorld ss n g))))
    as Hfail.
  { by intros rest e Hrest. }
  assert (Forall (fun r => ascii_reply r = true) (tail n)) as Htail.
  { by apply Forall_tail. }
  destruct (address_error host port n) as [[e rest]|] eqn:Haddr.
  { intros [= <- <-]. apply Hfail.
    by destruct (address_error_rest _ _ _ _ _ Haddr) as [->| ->]. }
  destruct (ss !! s) as [sk|] eqn:Hs; [|by intros [= <- <-]].
  destruct (status sk); try by intros [= <- <-].
  destruct n as [|[msg|d msg|d stream|msg] rest]; cbn [tail] in Htail.
  - by destruct (timeout sk); intros [= <- <-].
  - intros [= <- <-]. by apply Hfail.
  - intros [= <- <-]. by apply Hfail.
  - apply Forall_cons in Hnet as [Hstream Hrest].
    destruct (expires (timeout sk) d); intros [= <- <-]; [by apply Hfail|].
    split; [done|]. cbn. apply Forall_insert; [done|]. cbn.
    by apply forallb_Forall.
  - destruct (timeout sk); intros [= <- <-]; [by apply Hfail|done].
Qed.

Lemma connect_loop_ascii (host : text) (port : Z) (fuel : nat) :
  ∀ prev w r f,
    ascii_invariant w →
    while_true fuel (connect_to_server_body host port) (prev, w) = (r, f) →
    ascii_invariant (snd f).
Proof.
  induction fuel as [|fuel IH]; intros prev w r f Hinv.
  { by intros [= <- <-]. }
  rewrite while_true_S, connect_body_eq. cbn zeta.
  destruct (sock_connect _ _ _ _) as [rc w2] eqn:Hconn.
  apply sock_connect_ascii in Hconn.
  2:{ destruct Hinv as [Hnet Hsocks]. split; [done|]. cbn.
      apply Forall_app. split; [done|]. by repeat constructor. }
  assert (∀ e, ascii_invariant (emit e w2)) as Hemit.
  { intros e. by destruct Hconn. }
  destruct rc as [u|e| |]; try by intros [= <- <-].
  destruct (socket_error e); [|by intros [= <- <-]].
  apply IH. by destruct Hconn.
Qed.

Lemma connect_ascii (host : text) (port : Z) (fuel : nat) (w w' : world)
    (r : outcome nat) :
  ascii_invariant w → connect_to_server host port fuel w = (r, w') →
  ascii_invariant w'.
Proof.
  intros Hinv. unfold connect_to_server, call.
  destruct (while_true fuel _ _) as [r0 f] eqn:Hloop. intros [= <- <-].
  by eapply connect_loop_ascii.
Qed.

(** X11.  A peer that sends nothing but ASCII cannot stop the client.
    When the port is valid, the host one that [connect] always takes
    (ASCII, no null character) and every payload the network holds is
    ASCII, no run of [main] raises, returns or blocks: however much
    fuel it is given, it is still running when the fuel is used up. *)
Theorem ascii_peer_cannot_stop_client (host : text) (port : Z) (fuel : nat)
    (w : world) :
  valid_port port = true →
  ascii_host host = true →
  ascii_world w = true →
  fst (main host port fuel w) = OutOfFuel.
Proof.
  intros Hport Hhost Hw%ascii_world_invariant.
  unfold main. generalize fuel at 2. intros F. revert w Hw.
  induction fuel as [|fuel IH]; intros w Hw; [done|].
  rewrite while_true_S, main_body_eq.
  destruct (connect_never_raises host port Hport F w Hhost)
    as [w1 [Hconn|[s Hconn]]]; rewrite Hconn; [done|].
  pose proof (connect_ascii _ _ _ _ _ _ Hw Hconn) as Hw1.
  destruct (connect_socket _ _ _ _ _ _ Hconn) as [stream Hs1].
  destruct (listen_for_messages F s w1) as [rl w2] eqn:Hlisten.
  destruct (listen_ascii _ _ _ _ _ _ _ Hw1 Hs1 eq_refl Hlisten)
    as [Hw2 [->| ->]]; [|done].
  apply IH. unfold sock_close.
  destruct (socks w2 !! s) as [sk|] eqn:Hs2; cbn; [|by destruct Hw2].
  destruct Hw2 as [Hnet Hsocks]. split; [done|]. cbn.
  apply Forall_insert; [done|]. cbn.
  by apply (Forall_lookup_1 _ _ _ _ Hsocks Hs2).
Qed.

Lemma ascii_peer_cannot_stop_client_witness :
  fst (main localhost 8080 3
         (mkWorld [] [refused; Accepted 0 [Data 0 hello_nl; Broken 1 reset_msg]]
            []))
  = OutOfFuel.
Proof.
  exact (ascii_peer_cannot_stop_client localhost 8080 3
           (mkWorld [] [refused; Accepted 0 [Data 0 hello_nl; Broken 1 reset_msg]]
              [])
           eq_refl eq_refl eq_refl).
Defined.

(** ** A connection that breaks *)

(** X12.  When the connection breaks after some messages (the read
    raises a transport error in time), the turn of the Session Loop
    shows the messages, prints the error line with [str(e)], closes the
    socket, prints the reconnect line and falls through to the next
    turn.  What the peer had still to send on that connection stays
    with the closed socket and is never read. *)
Theorem broken_connection_is_replaced (host : text) (port : Z)
    (ss : list socket) (rest : list connect_reply) (g : list event)
    (d d' : Q) (msg : text) (goods tail : list recv_reply)
    (traces : list (list event)) (fuel : nat) :
  valid_port port = true →
  Qle_bool 5.0 d = false →
  mapM (delivery (length ss) (Some 5.0%Q)) goods = Some traces →
  Qle_bool 5.0 d' = false →
  let s := length ss in
  main_body host port (length goods + S fuel)
    (mkWorld ss (Accepted d (goods ++ Broken d' msg :: tail) :: rest) g)
  = (Ok None,
     mkWorld (ss ++ [mkSocket (Some 5.0%Q) Closed tail]) rest
       (g ++ successful_attempt host port s ++ concat traces
          ++ [EvRecv s 1024 None;
              EvPrint (lit "Connection error: " ++ msg);
              EvClose s;
              EvPrint (lit "Connection lost. Reconnecting...")])).
Proof.
  intros Hport Hd Hgoods%mapM_Some Hd' s. subst s.
  rewrite (main_body_session host port ss rest g d goods
             (Broken d' msg :: tail) traces fuel
             (mkWorld (ss ++ [mkSocket (Some 5.0%Q) Connected tail]) rest
                ((g ++ successful_attempt host port (length ss)
                    ++ concat traces)
                 ++ [EvRecv (length ss) 1024 None;
                     EvPrint (lit "Connection error: " ++ msg)]))
             Hport Hd Hgoods).
  - rewrite sock_close_last. unfold emit.
    cbn [snd socks net log timeout inbox]. by rewrite <- !app_assoc.
  - rewrite listen_body_eq.
    rewrite (sock_recv_broken _ _ _ (length ss) (Some 5.0%Q) _
               (lookup_snoc_last _ _) 1024 d' msg tail) by done.
    rewrite insert_snoc_last. cbn. unfold emit. cbn.
    by rewrite <- !app_assoc.
Qed.

(** Scenario 3 of the specification: the connection is reset during the
    first read. *)
Lemma broken_connection_is_replaced_witness :
  main_body localhost 8080 1
    (mkWorld [] [Accepted 0 [Broken 0 reset_msg]] [])
  = (Ok None,
     mkWorld [mkSocket (Some 5.0%Q) Closed []] []
       (successful_attempt localhost 8080 0
        ++ [EvRecv 0 1024 None;
            EvPrint (lit "Connection error: " ++ reset_msg);
            EvClose 0;
            EvPrint (lit "Connection lost. Reconnecting...")])).
Proof.
  exact (broken_connection_is_replaced localhost 8080 [] [] [] 0 0 reset_msg
           [] [] [] 0 eq_refl eq_refl eq_refl eq_refl).
Defined.

(** ** A host that is not taken *)

(** X13.  A host that [connect] does not take ends the client at its
    first attempt: [connect] raises [TypeError] before it looks at the
    port or at the network; that is no [socket.error], so neither the
    Connector nor [main] retries.  One socket has been created and is
    left as it is. *)
Theorem untaken_host_is_not_retried (host : text) (port : Z)
    (ss : list socket) (msg : text) (rest : list connect_reply)
    (g : list event) (fuel : nat) :
  ascii_host host = false →
  let s := length ss in
  let w := mkWorld ss (Untaken msg :: rest) g in
  let w' := mkWorld (ss ++ [fresh_socket]) rest
              (g ++ [attempting host port; EvSocket s; EvSetTimeout s 5.0%Q;
                     EvConnect s host port false]) in
  connect_to_server host port (S fuel) w = (Raise (TypeError msg), w')
  ∧ main host port (S fuel) w = (Raise (TypeError msg), w').
Proof.
  intros Hhost s w w'.
  assert (connect_to_server host port (S fuel) w = (Raise (TypeError msg), w'))
    as Hconn.
  { unfold connect_to_server, call.
    rewrite while_true_S, connect_body_eq. cbn zeta.
    subst w. cbn [socks net log released_in app].
    unfold sock_connect, address_error. cbn [socks net log].
    rewrite Hhost. cbn.
    unfold emit, set_net. cbn. subst w' s. by rewrite <- app_assoc. }
  split; [done|].
  unfold main. by rewrite while_true_S, main_body_eq, Hconn.
Qed.

(** The host [é..], which the [idna] codec rejects. *)
Lemma untaken_host_is_not_retried_witness :
  main [233%N; 46%N; 46%N] 8080 1
    (mkWorld [] [Untaken (lit "encoding of hostname failed")] [])
  = (Raise (TypeError (lit "encoding of hostname failed")),
     mkWorld [fresh_socket] []
       [attempting [233%N; 46%N; 46%N] 8080; EvSocket 0; EvSetTimeout 0 5.0%Q;
        EvConnect 0 [233%N; 46%N; 46%N] 8080 false]).
Proof.
  exact (proj2 (untaken_host_is_not_retried [233%N; 46%N; 46%N] 8080 []
                  (lit "encoding of hostname failed") [] [] 0 eq_refl)).
Defined.

(** ** The order of sessions *)

(** X14.  On every run of the Session Loop the log keeps to the order
    of sessions: it is accepted by the automaton of the phases; a
    close comes only after the successful connect of the same socket
    and at least one read on it, with nothing but the Receiver's reads
    and lines in between (so no second close); and between the
    successful connect of a socket and the creation of the next socket
    the first one is closed.  Whenever the Receiver returns, the turn
    closes the connection, once, prints the reconnect line and falls
    through to the next turn. *)
Theorem session_order (host : text) (port : Z) :
  (∀ fuel w, ∃ evs,
     log (snd (main host port fuel w)) = log w ++ evs
     ∧ is_Some (Protocol.run host port (Protocol.Connecting None) evs)
     ∧ (∀ i s, evs !! i = Some (EvClose s) →
          ∃ pre mid, take i evs = pre ++ EvConnect s host port true :: mid
                     ∧ forallb (receiver_event s) mid = true
                     ∧ existsb is_recv mid = true)
     ∧ (∀ j k s h p s',
          evs !! j = Some (EvConnect s h p true) →
          evs !! k = Some (EvSocket s') → (j < k)%nat →
          ∃ i, (j < i < k)%nat ∧ evs !! i = Some (EvClose s)))
  ∧ (∀ fuel w s w1 u w2,
       connect_to_server host port fuel w = (Ok s, w1) →
       listen_for_messages fuel s w1 = (Ok u, w2) →
       ∃ w3 box,
         main_body host port fuel w = (Ok None, w3)
         ∧ log w3 = log w2 ++ [EvClose s;
                               EvPrint (lit "Connection lost. Reconnecting...")]
         ∧ socks w2 !! s = Some (mkSocket (Some 5.0%Q) Connected box)
         ∧ socks w3 !! s = Some (mkSocket (Some 5.0%Q) Closed box)).
Proof.
  split.
  - intros fuel w.
    destruct (main host port fuel w) as [r w'] eqn:Hrun.
    destruct (main_in_order _ _ _ _ _ _ Hrun) as (evs & q & Hlog & Hq).
    exists evs. split_and!; [done|by eexists| |].
    + intros i s. by eapply run_close.
    + intros j k s h p s'. by eapply run_close_before_next.
  - intros fuel w s w1 u w2. apply main_body_closes.
Qed.

(** One session that ends in a clean close. *)
Lemma session_order_witness :
  ∃ w3 box,
    main_body localhost 8080 1 (mkWorld [] [Accepted 0 [Data 0 []]] [])
    = (Ok None, w3)
    ∧ log w3 = (successful_attempt localhost 8080 0
                ++ [EvRecv 0 1024 (Some []);
                    EvPrint (lit "Server closed the connection.")])
               ++ [EvClose 0; EvPrint (lit "Connection lost. Reconnecting...")]
    ∧ [mkSocket (Some 5.0%Q) Connected []] !! 0%nat
      = Some (mkSocket (Some 5.0%Q) Connected box)
    ∧ socks w3 !! 0%nat = Some (mkSocket (Some 5.0%Q) Closed box).
Proof.
  exact (proj2 (session_order localhost 8080) 1%nat
           (mkWorld [] [Accepted 0 [Data 0 []]] []) 0%nat
           (mkWorld [mkSocket (Some 5.0%Q) Connected [Data 0 []]] []
              (successful_attempt localhost 8080 0))
           tt
           (mkWorld [mkSocket (Some 5.0%Q) Connected []] []
              (successful_attempt localhost 8080 0
               ++ [EvRecv 0 1024 (Some []);
                   EvPrint (lit "Server closed the connection.")]))
           eq_refl eq_refl).
Defined.
